(** * aggregator::SampleReader (src/SampleReader.hpp)

    A shallow embedding of the time-ordered multi-stream sample aggregator and
    the properties of its [push] and [step] operations.

    Modelling conventions.
    - [base::Time] comes from the external header [base/time.h]; it wraps a
      signed count of microseconds with comparison, addition, subtraction and
      [isNull].  It is embedded as [Z]; signed overflow (undefined in C++) is
      not modelled.
    - [Stream<T>] is stored behind [StreamBase*] and recovered by
      [dynamic_cast]; the element type is kept as a tag [elem] of an arbitrary
      type [Ty] with decidable equality, payloads live in one type [Val].
    - [size_t] quantities are [nat]; the [int] argument of [registerStream] is
      converted the way C++ converts it (modulo [2^64]).
    - The per-stream [callback] is an effect: every invocation is appended to
      the field [calls] of the aggregator, tagged with the index of the
      stream whose callback ran.
    - [std::sort] is only specified up to its postcondition (a permutation of
      the input, ordered for [operator<]); it is a parameter, the class
      [StdSort].  The implementation of libstdc++ is transcribed in
      [Libstdcxx] and is one instance of it.
    - [assert] is taken as enabled (no [NDEBUG]): a failed assertion aborts. *)

From Stdlib Require Import ZArith Lia Bool String.
From stdpp Require Import base tactics option list sorting.

Local Open Scope Z_scope.

(** ** base::Time *)

Definition Time := Z.

Definition isNull (t : Time) : bool := t =? 0.

(** ** SampleReader::StreamIndex *)

Module StreamIndex.

Record t := mk { time : Time; hasData : bool; stream : nat }.

(** [operator<] compares the time only. *)
Definition lt (a b : t) : bool := time a <? time b.

(** The order [std::sort] leaves its range in: no element is [operator<]
    an element before it. *)
Definition ordered (a b : t) : Prop := lt b a = false.

End StreamIndex.

(** ** std::sort on a vector of StreamIndex *)

Class StdSort := {
  sort : list StreamIndex.t → list StreamIndex.t;
  sort_perm : ∀ l, sort l ≡ₚ l;
  sort_sorted : ∀ l, StronglySorted StreamIndex.ordered (sort l)
}.

(** A sort keeps equal elements in order when, for every time, the elements
    carrying that time come out in the order they went in. *)
Definition at_time (t : Time) (l : list StreamIndex.t) : list StreamIndex.t :=
  filter (λ a, StreamIndex.time a = t) l.

Definition stable (Sort : StdSort) : Prop :=
  ∀ l t, at_time t (sort l) = at_time t l.

(** ** SampleReader::Stream<T> *)

Module Stream.
Section stream.
Context {Ty Val : Type}.

Definition item : Type := Time * Val.

Record t := mk {
  elem : Ty;
  buffer : list item;
  bufferSize : nat;
  period : Time;
  lastTime : Time;
  overdue : bool
}.

(** The constructor: empty queue, [lastTime] default-constructed (null),
    [overdue] false. *)
Definition new (T : Ty) (bufferSize : nat) (period : Time) : t :=
  mk T [] bufferSize period 0 false.

Definition getBufferStatus (st : t) : nat * nat :=
  (length (buffer st), bufferSize st).

Definition hasData (st : t) : bool :=
  match buffer st with [] => false | _ => true end.

Definition nextTimeStamp (st : t) : Time :=
  match buffer st with
  | (ts, _) :: _ => ts
  | [] => lastTime st + period st
  end.

(** [while (bufferSize > 0 && buffer.size() >= bufferSize) buffer.pop();] *)
Fixpoint make_space (bufferSize : nat) (buf : list item) : list item :=
  match buf with
  | [] => []
  | _ :: tl =>
      if (0 <? bufferSize)%nat && (bufferSize <=? length buf)%nat
      then make_space bufferSize tl
      else buf
  end.

Definition push (st : t) (ts : Time) (data : Val) : t :=
  if ts <? lastTime st then st
  else mk (elem st)
          (make_space (bufferSize st) (buffer st) ++ [(ts, data)])
          (bufferSize st) (period st) ts (overdue st).

(** [pop(late)]: the new stream and the callback invocation, if any. *)
Definition pop (late : bool) (st : t) : t * option item :=
  match buffer st with
  | [] => (st, None)
  | front :: tl =>
      if late
      then (mk (elem st) tl (bufferSize st) (period st) (lastTime st)
               (overdue st), None)
      else (mk (elem st) tl (bufferSize st) (period st) (lastTime st)
               false, Some front)
  end.

Definition set_overdue (b : bool) (st : t) : t :=
  mk (elem st) (buffer st) (bufferSize st) (period st) (lastTime st) b.

(** The [do { ... } while (late && hasData)] of [step] on one stream:
    front samples older than [current_ts] are popped with [late = true]. *)
Fixpoint drop_late (current_ts : Time) (buf : list item) : list item :=
  match buf with
  | [] => []
  | (ts, _) :: tl =>
      if ts <? current_ts then drop_late current_ts tl else buf
  end.

Definition throw_out_late (current_ts : Time) (st : t) : t :=
  mk (elem st) (drop_late current_ts (buffer st)) (bufferSize st)
     (period st) (lastTime st) (overdue st).

End stream.
Arguments t : clear implicits.
End Stream.

(** ** SampleReader *)

Module SampleReader.
Section reader.
Context {Ty Val : Type} `{EqDecision Ty}.

(** One callback invocation: the stream whose callback ran, and the
    [(ts, value)] it was given. *)
Definition call : Type := nat * Time * Val.

Definition call_stream (c : call) : nat := c.1.1.
Definition call_ts (c : call) : Time := c.1.2.
Definition call_item (c : call) : Time * Val := (c.1.2, c.2).

Record t := mk {
  streams : list (Stream.t Ty Val);
  timeout : Time;
  latest_ts : Time;
  current_ts : Time;
  calls : list call
}.

(** [explicit SampleReader(base::Time timeout = base::Time(1))] *)
Definition new (timeout : Time) : t := mk [] timeout 0 0 [].

Definition setTimeout (s : t) (tm : Time) : t :=
  mk (streams s) tm (latest_ts s) (current_ts s) (calls s).

(** The conversion of the [int bufferSize] argument to the [size_t]
    parameter of the [Stream] constructor. *)
Definition size_t_of_int (n : Z) : nat := Z.to_nat (n mod 2 ^ 64).

Definition registerStream (s : t) (T : Ty) (bufferSize : Z) (period : Time)
  : t * Z :=
  (mk (streams s ++ [Stream.new T (size_t_of_int bufferSize) period])
      (timeout s) (latest_ts s) (current_ts s) (calls s),
   Z.of_nat (length (streams s))).

Definition set_streams (sts : list (Stream.t Ty Val)) (s : t) : t :=
  mk sts (timeout s) (latest_ts s) (current_ts s) (calls s).

Definition set_latest_ts (ts : Time) (s : t) : t :=
  mk (streams s) (timeout s) ts (current_ts s) (calls s).

Definition set_current_ts (ts : Time) (s : t) : t :=
  mk (streams s) (timeout s) (latest_ts s) ts (calls s).

(** How a call of [push] ends: it returns, it throws
    [std::runtime_error(what)], the [assert] fails and the program aborts,
    or it runs into undefined behaviour ([streams[idx]] out of range).
    The first three carry the aggregator as the call left it. *)
Inductive result :=
| Return (s : t)
| Throw (what : string) (s : t)
| AssertFail (s : t)
| Undefined.

Definition push (s : t) (idx : Z) (T : Ty) (ts : Time) (data : Val)
  : result :=
  if idx <? 0 then Throw "invalid stream index." s
  else if ts + timeout s <? latest_ts s then Return s
  else
    let s1 := if latest_ts s <? ts then set_latest_ts ts s else s in
    match streams s1 !! Z.to_nat idx with
    | None => Undefined
    | Some st =>
        if decide (Stream.elem st = T)
        then Return (set_streams
                       (<[Z.to_nat idx := Stream.push st ts data]>
                          (streams s1)) s1)
        else AssertFail s1
    end.

(** The first loop of [step] over [streams], from index [i] on: the swept
    streams, the candidates in the order they were pushed back, and
    [listHasData]. *)
Fixpoint collect (current_ts : Time) (i : nat)
    (sts : list (Stream.t Ty Val))
  : list (Stream.t Ty Val) * list StreamIndex.t * bool :=
  match sts with
  | [] => ([], [], false)
  | st :: rest =>
      let st' := Stream.throw_out_late current_ts st in
      let ts := Stream.nextTimeStamp st' in
      let hasData := Stream.hasData st' in
      let '(rest', items, listHasData) := collect current_ts (S i) rest in
      if hasData || negb (isNull ts)
      then (st' :: rest', StreamIndex.mk ts hasData i :: items,
            hasData || listHasData)
      else (st' :: rest', items, listHasData)
  end.

(** [(it->stream)->pop(false)]: the stream is popped and the callback
    invocation recorded. *)
Definition pop_stream (i : nat) (s : t) : t :=
  match streams s !! i with
  | None => s
  | Some st =>
      let '(st', c) := Stream.pop false st in
      mk (<[i := st']> (streams s)) (timeout s) (latest_ts s)
         (current_ts s)
         (calls s ++ match c with
                     | Some (ts, v) => [(i, ts, v)]
                     | None => []
                     end)
  end.

Definition mark_overdue (i : nat) (s : t) : t :=
  match streams s !! i with
  | None => s
  | Some st => set_streams (<[i := Stream.set_overdue true st]> (streams s)) s
  end.

(** The second loop of [step], over the sorted candidates. *)
Fixpoint scan (items : list StreamIndex.t) (s : t) : bool * t :=
  match items with
  | [] => (false, s)
  | it :: rest =>
      if StreamIndex.hasData it
      then (true, set_current_ts (StreamIndex.time it)
                    (pop_stream (StreamIndex.stream it) s))
      else if latest_ts s <? StreamIndex.time it + timeout s
      then (false, s)
      else scan rest (mark_overdue (StreamIndex.stream it) s)
  end.

Definition step {Sort : StdSort} (s : t) : bool * t :=
  match streams s with
  | [] => (false, s)
  | _ =>
      let '(sts, items, listHasData) :=
        collect (current_ts s) 0 (streams s) in
      let s1 := set_streams sts s in
      match items with
      | [] => (false, s1)
      | _ => if negb listHasData then (false, s1)
             else scan (sort items) s1
      end
  end.

Definition getLatency (s : t) : Time := latest_ts s - current_ts s.
Definition getCurrentTime (s : t) : Time := current_ts s.
Definition getLatestTime (s : t) : Time := latest_ts s.

Definition getBufferStatus (s : t) (idx : Z) : option (nat * nat) :=
  if idx <? 0 then None
  else Stream.getBufferStatus <$> streams s !! Z.to_nat idx.

(** *** Executions

    The operations a client performs on one aggregator.  A call of [push]
    that throws leaves the aggregator usable; one that aborts or is
    undefined ends the execution. *)
Inductive op :=
| OpRegister (T : Ty) (bufferSize : Z) (period : Time)
| OpSetTimeout (tm : Time)
| OpPush (idx : Z) (T : Ty) (ts : Time) (data : Val)
| OpStep.

Definition exec {Sort : StdSort} (o : op) (s : t) : option t :=
  match o with
  | OpRegister T bs p => Some (registerStream s T bs p).1
  | OpSetTimeout tm => Some (setTimeout s tm)
  | OpPush idx T ts d =>
      match push s idx T ts d with
      | Return s' => Some s'
      | Throw _ s' => Some s'
      | AssertFail _ => None
      | Undefined => None
      end
  | OpStep => Some (step s).2
  end.

(** The aggregator after the operations [ops], or where the execution
    ended. *)
Fixpoint run {Sort : StdSort} (ops : list op) (s : t) : t :=
  match ops with
  | [] => s
  | o :: rest =>
      match exec o s with
      | Some s' => run rest s'
      | None => s
      end
  end.

(** The samples handed to the callback of stream [i], oldest first. *)
Definition delivered (i : nat) (s : t) : list (Time * Val) :=
  call_item <$> filter (λ c, call_stream c = i) (calls s).

(** The test of [push] for a sample too old to be queued. *)
Definition stale (s : t) (ts : Time) : bool := ts + timeout s <? latest_ts s.

(** What the operation [o], performed on [s], pushes to stream [i] that is
    not stale at that time. *)
Definition fresh_push (i : nat) (o : op) (s : t) : list (Time * Val) :=
  match o with
  | OpPush idx _ ts d =>
      if decide (idx = Z.of_nat i)
      then if stale s ts then [] else [(ts, d)]
      else []
  | _ => []
  end.

(** The samples pushed to stream [i] along the execution of [ops] from [s]
    that were not stale when they were pushed, oldest first. *)
Fixpoint fresh_pushes {Sort : StdSort} (i : nat) (ops : list op) (s : t)
  : list (Time * Val) :=
  match ops with
  | [] => []
  | o :: rest =>
      match exec o s with
      | None => []
      | Some s' => fresh_push i o s ++ fresh_pushes i rest s'
      end
  end.

(** The queue of stream [i]; empty when there is no such stream. *)
Definition queue (i : nat) (s : t) : list (Time * Val) :=
  match streams s !! i with
  | Some st => Stream.buffer st
  | None => []
  end.

(** Pushing the samples [l], in order, to the stream [idx] typed [T]. *)
Definition pushes (idx : Z) (T : Ty) (l : list (Time * Val)) : list op :=
  (λ x, OpPush idx T x.1 x.2) <$> l.

End reader.
Arguments t : clear implicits.
Arguments op : clear implicits.
Arguments call : clear implicits.
End SampleReader.

(** ** Notions used in the statements *)

Section notions.
Context {Ty Val : Type}.
Implicit Types (s : SampleReader.t Ty Val) (st : Stream.t Ty Val).
Implicit Types (it a b : StreamIndex.t) (i : nat).
Implicit Types (T : Ty) (buf l : list (Time * Val)).
Implicit Types (cs : list (SampleReader.call Val)).

Import SampleReader.

(** [st'] is [st] with samples removed from the front of its queue, and
    possibly another [overdue] flag. *)
Definition shrinks st st' : Prop :=
  Stream.elem st' = Stream.elem st ∧
  Stream.bufferSize st' = Stream.bufferSize st ∧
  Stream.period st' = Stream.period st ∧
  Stream.lastTime st' = Stream.lastTime st ∧
  Stream.buffer st' `suffix_of` Stream.buffer st.

(** The candidate the first loop builds for the stream at index [i]. *)
Definition candidate (cur : Time) (i : nat) st : StreamIndex.t :=
  let st' := Stream.throw_out_late cur st in
  StreamIndex.mk (Stream.nextTimeStamp st') (Stream.hasData st') i.

(** A candidate enters the list when it has data or expects some. *)
Definition considered it : bool :=
  StreamIndex.hasData it || negb (isNull (StreamIndex.time it)).

(** The outcome [r] of the second loop or of [step] on [s], with
    [cur] the value of [current_ts] on entry: queues only lose samples at
    the front, and either nothing is delivered, or exactly one sample is,
    which was in a queue of [s], is not older than [cur], and becomes
    [current_ts]. *)
Definition step_post (cur : Time) s (r : bool * SampleReader.t Ty Val)
  : Prop :=
  timeout r.2 = timeout s ∧
  latest_ts r.2 = latest_ts s ∧
  Forall2 shrinks (streams s) (streams r.2) ∧
  ((r.1 = false ∧ calls r.2 = calls s ∧ current_ts r.2 = current_ts s) ∨
   (r.1 = true ∧
    ∃ i t v st st',
      cur <= t ∧ current_ts r.2 = t ∧
      calls r.2 = calls s ++ [(i, t, v)] ∧
      streams s !! i = Some st ∧ streams r.2 !! i = Some st' ∧
      (t, v) :: Stream.buffer st' `suffix_of` Stream.buffer st)).

(** No queued sample is newer than [latest]. *)
Definition bounded_by (latest : Time) st : Prop :=
  Forall (λ x, x.1 <= latest) (Stream.buffer st).

(** A bounded queue holds no more than [bufferSize] samples. *)
Definition within_capacity st : Prop :=
  (0 < Stream.bufferSize st →
   length (Stream.buffer st) ≤ Stream.bufferSize st)%nat.

(** The invariant of executions: the clocks are ordered, no queued sample
    is newer than [latest_ts], no delivery is newer than [current_ts], the
    deliveries are in time order, and the queues are within capacity. *)
Definition inv s : Prop :=
  current_ts s <= latest_ts s ∧
  Forall (bounded_by (latest_ts s)) (streams s) ∧
  Forall (λ c, call_ts c <= current_ts s) (calls s) ∧
  StronglySorted Z.le (call_ts <$> calls s) ∧
  Forall within_capacity (streams s).

(** [s'] is not behind [s] on either clock. *)
Definition not_behind s s' : Prop :=
  latest_ts s <= latest_ts s' ∧ current_ts s <= current_ts s'.

(** The samples of stream [i] delivered so far, followed by those still
    queued. *)
Definition held i s : list (Time * Val) := delivered i s ++ queue i s.

(** An aggregator with one stream whose [lastTime] is [latest_ts]. *)
Definition single T (bufferSize : nat) (period tm : Time) buf
    (latest cur : Time) cs : SampleReader.t Ty Val :=
  SampleReader.mk [Stream.mk T buf bufferSize period latest false]
    tm latest cur cs.

(** The time of the last sample of [l], [d] when there is none. *)
Fixpoint last_ts (d : Time) l : Time :=
  match l with
  | [] => d
  | x :: l' => last_ts x.1 l'
  end.

(** The record of a delivery of [x] by stream 0. *)
Definition by_stream_0 (x : Time * Val) : call Val := (0%nat, x.1, x.2).

(** The candidates of [step] on [s], in the order the first loop pushes
    them back: the order of registration. *)
Definition candidates s : list StreamIndex.t :=
  (collect (current_ts s) 0 (streams s)).1.2.

(** [a] was registered before [b]. *)
Definition registered_before a b : Prop :=
  (StreamIndex.stream a < StreamIndex.stream b)%nat.

(** A queue as [Stream::push] builds it: time stamps in non-decreasing
    order, none above [lastTime], and [lastTime] between zero and
    [latest]. *)
Definition well_queued (latest : Time) st : Prop :=
  StronglySorted Z.le (Stream.buffer st).*1 ∧
  Forall (λ x, x.1 <= Stream.lastTime st) (Stream.buffer st) ∧
  0 <= Stream.lastTime st <= latest.


(** [Stream::push] of the samples [l], one after the other. *)
Definition push_all st l : Stream.t Ty Val :=
  foldl (λ st x, Stream.push st x.1 x.2) st l.

(** The aggregator after the first loop of [step]: in every stream the
    front samples older than [current_ts] are gone. *)
Definition swept s : SampleReader.t Ty Val :=
  set_streams (Stream.throw_out_late (current_ts s) <$> streams s) s.

(** No sample queued in [st] is older than [c]. *)
Definition none_before (c : Time) st : Prop :=
  Forall (λ x, c <= x.1) (Stream.buffer st).

(** The last [n] elements of a list. *)
Definition newest {A} (n : nat) (l : list A) : list A :=
  drop (length l - n) l.

End notions.

(** ** std::sort as libstdc++ implements it

    The C++ standard fixes [std::sort] up to the postcondition of [StdSort];
    the order in which [step] scans candidates of equal time is decided by the
    implementation that is linked.  This module transcribes the one of GCC's
    libstdc++ (GCC 12, [bits/stl_algo.h] and [bits/stl_heap.h]): an introsort,
    that is a quicksort with a median-of-three pivot on ranges of more than
    [_S_threshold = 16] elements, a heap sort once the depth limit is used up,
    and an insertion sort over the whole range at the end.

    The vector is a list and an iterator is an index into it, so that
    [first] and [last] delimit the range [first, last).  Every loop is a
    [Fixpoint] over a bound on its number of iterations.  The unguarded loops
    of the library rely on a sentinel in the vector and have no bound test of
    their own; reading outside the vector is undefined in C++, and where the
    model would do so the comparison counts as false, which ends the loop,
    and nothing is written. *)

Module Libstdcxx.

Local Open Scope nat_scope.

Section sort.
Context {A : Type} (comp : A → A → bool).
Implicit Types (arr : list A) (first last middle result i : nat).

(** [enum { _S_threshold = 16 };] *)
Definition threshold : nat := 16.

(** [__comp(i, j)] on two iterators: [*i < *j]. *)
Definition comp_at arr (i j : nat) : bool :=
  match arr !! i, arr !! j with
  | Some a, Some b => comp a b
  | _, _ => false
  end.

(** [std::iter_swap(i, j)] *)
Definition iter_swap arr (i j : nat) : list A :=
  match arr !! i, arr !! j with
  | Some a, Some b => <[j := a]> (<[i := b]> arr)
  | _, _ => arr
  end.

(** [__move_median_to_first(result, a, b, c, comp)]: swaps the median of
    [*a], [*b], [*c] into [*result]. *)
Definition move_median_to_first arr (result a b c : nat) : list A :=
  if comp_at arr a b then
    if comp_at arr b c then iter_swap arr result b
    else if comp_at arr a c then iter_swap arr result c
    else iter_swap arr result a
  else if comp_at arr a c then iter_swap arr result a
  else if comp_at arr b c then iter_swap arr result c
  else iter_swap arr result b.

(** The loop of [__unguarded_linear_insert]:
    [while (comp(val, next)) { *last = *next; last = next; --next; }
     *last = val;] with [next = last - 1]. *)
Fixpoint linear_insert_loop (val : A) arr (last : nat) : list A :=
  match last with
  | 0 => <[0%nat := val]> arr
  | S next =>
      match arr !! next with
      | Some x =>
          if comp val x
          then linear_insert_loop val (<[S next := x]> arr) next
          else <[S next := val]> arr
      | None => <[S next := val]> arr
      end
  end.

(** [__unguarded_linear_insert(last, comp)]: [val = *last], then the loop. *)
Definition unguarded_linear_insert arr (last : nat) : list A :=
  match arr !! last with
  | Some val => linear_insert_loop val arr last
  | None => arr
  end.

(** The body of the loop of [__insertion_sort]: if [*i < *first], [*i] is
    moved to the front by [move_backward(first, i, i + 1); *first = val],
    otherwise it is inserted by [__unguarded_linear_insert]. *)
Definition insertion_step arr first i : list A :=
  if comp_at arr i first then
    match arr !! i with
    | Some val =>
        take first arr ++ val :: take (i - first) (drop first arr)
          ++ drop (S i) arr
    | None => arr
    end
  else unguarded_linear_insert arr i.

Fixpoint insertion_loop (n : nat) arr first i : list A :=
  match n with
  | 0 => arr
  | S n' => insertion_loop n' (insertion_step arr first i) first (S i)
  end.

(** [__insertion_sort(first, last, comp)]:
    [if (first == last) return;
     for (i = first + 1; i != last; ++i) ...] *)
Definition insertion_sort arr first last : list A :=
  if decide (first = last) then arr
  else insertion_loop (last - S first) arr first (S first).

Fixpoint unguarded_insertion_loop (n : nat) arr i : list A :=
  match n with
  | 0 => arr
  | S n' => unguarded_insertion_loop n' (unguarded_linear_insert arr i) (S i)
  end.

(** [__unguarded_insertion_sort(first, last, comp)]:
    [for (i = first; i != last; ++i) __unguarded_linear_insert(i, comp);] *)
Definition unguarded_insertion_sort arr first last : list A :=
  unguarded_insertion_loop (last - first) arr first.

(** [__final_insertion_sort(first, last, comp)] *)
Definition final_insertion_sort arr first last : list A :=
  if (threshold <? last - first)%nat
  then unguarded_insertion_sort
         (insertion_sort arr first (first + threshold))
         (first + threshold) last
  else insertion_sort arr first last.

(** [while (comp(first, pivot)) ++first;] *)
Fixpoint scan_up (fuel : nat) arr (pivot first : nat) : nat :=
  match fuel with
  | 0 => first
  | S fuel' =>
      if comp_at arr first pivot then scan_up fuel' arr pivot (S first)
      else first
  end.

(** [while (comp(pivot, last)) --last;] *)
Fixpoint scan_down arr (pivot last : nat) : nat :=
  match last with
  | 0 => 0
  | S last' =>
      if comp_at arr pivot last then scan_down arr pivot last' else last
  end.

(** [__unguarded_partition(first, last, pivot, comp)]:
    [while (true) {
       while (comp(first, pivot)) ++first;
       --last;
       while (comp(pivot, last)) --last;
       if (!(first < last)) return first;
       std::iter_swap(first, last);
       ++first; }] *)
Fixpoint unguarded_partition (fuel : nat) arr (first last pivot : nat)
  : list A * nat :=
  match fuel with
  | 0 => (arr, first)
  | S fuel' =>
      let first := scan_up (length arr) arr pivot first in
      let last := scan_down arr pivot (last - 1) in
      if negb (first <? last)%nat then (arr, first)
      else unguarded_partition fuel' (iter_swap arr first last)
             (S first) last pivot
  end.

(** [__unguarded_partition_pivot(first, last, comp)]:
    [mid = first + (last - first) / 2;
     __move_median_to_first(first, first + 1, mid, last - 1, comp);
     return __unguarded_partition(first + 1, last, first, comp);] *)
Definition unguarded_partition_pivot arr first last : list A * nat :=
  let mid := (first + (last - first) / 2)%nat in
  let arr := move_median_to_first arr first (S first) mid (last - 1) in
  unguarded_partition (length arr) arr (S first) last first.

(** The heap operations of [bits/stl_heap.h] address the range by a signed
    distance from [first]: [*(first + k)] is read by [get] and written by
    [put]. *)
Definition get arr first (k : Z) : option A :=
  arr !! (first + Z.to_nat k)%nat.

Definition put arr first (k : Z) (x : A) : list A :=
  <[(first + Z.to_nat k)%nat := x]> arr.

(** [__push_heap(first, holeIndex, topIndex, value, comp)]:
    [parent = (holeIndex - 1) / 2;
     while (holeIndex > topIndex && comp(first + parent, value)) {
       *(first + holeIndex) = *(first + parent);
       holeIndex = parent; parent = (holeIndex - 1) / 2; }
     *(first + holeIndex) = value;] *)
Fixpoint push_heap_loop (fuel : nat) arr first (holeIndex topIndex : Z)
    (value : A) : list A :=
  let parent := Z.quot (holeIndex - 1) 2 in
  match fuel with
  | 0 => put arr first holeIndex value
  | S fuel' =>
      match get arr first parent with
      | Some p =>
          if (topIndex <? holeIndex)%Z && comp p value
          then push_heap_loop fuel' (put arr first holeIndex p) first
                 parent topIndex value
          else put arr first holeIndex value
      | None => put arr first holeIndex value
      end
  end.

Definition push_heap arr first (holeIndex topIndex : Z) (value : A)
  : list A :=
  push_heap_loop (S (Z.to_nat holeIndex)) arr first holeIndex topIndex value.

(** The first loop of [__adjust_heap]:
    [while (secondChild < (len - 1) / 2) {
       secondChild = 2 * (secondChild + 1);
       if (comp(first + secondChild, first + (secondChild - 1)))
         secondChild--;
       *(first + holeIndex) = *(first + secondChild);
       holeIndex = secondChild; }] *)
Fixpoint adjust_heap_loop (fuel : nat) arr first
    (holeIndex secondChild len : Z) : list A * Z * Z :=
  match fuel with
  | 0 => (arr, holeIndex, secondChild)
  | S fuel' =>
      if (secondChild <? Z.quot (len - 1) 2)%Z then
        let secondChild := (2 * (secondChild + 1))%Z in
        let secondChild :=
          match get arr first secondChild, get arr first (secondChild - 1)
          with
          | Some a, Some b => if comp a b then (secondChild - 1)%Z
                              else secondChild
          | _, _ => secondChild
          end in
        match get arr first secondChild with
        | Some c =>
            adjust_heap_loop fuel' (put arr first holeIndex c) first
              secondChild secondChild len
        | None => (arr, holeIndex, secondChild)
        end
      else (arr, holeIndex, secondChild)
  end.

(** [__adjust_heap(first, holeIndex, len, value, comp)]: the loop above from
    [secondChild = holeIndex], then
    [if ((len & 1) == 0 && secondChild == (len - 2) / 2) {
       secondChild = 2 * (secondChild + 1);
       *(first + holeIndex) = *(first + (secondChild - 1));
       holeIndex = secondChild - 1; }
     __push_heap(first, holeIndex, topIndex, value, comp);] *)
Definition adjust_heap arr first (holeIndex len : Z) (value : A) : list A :=
  let topIndex := holeIndex in
  let '(arr, holeIndex, secondChild) :=
    adjust_heap_loop (Z.to_nat len) arr first holeIndex holeIndex len in
  let '(arr, holeIndex) :=
    if (Z.land len 1 =? 0)%Z && (secondChild =? Z.quot (len - 2) 2)%Z
    then
      let secondChild := (2 * (secondChild + 1))%Z in
      match get arr first (secondChild - 1) with
      | Some c => (put arr first holeIndex c, (secondChild - 1)%Z)
      | None => (arr, holeIndex)
      end
    else (arr, holeIndex) in
  push_heap arr first holeIndex topIndex value.

(** [__pop_heap(first, last, result, comp)]:
    [value = *result; *result = *first;
     __adjust_heap(first, 0, last - first, value, comp);] *)
Definition pop_heap arr first last result : list A :=
  match arr !! result, arr !! first with
  | Some value, Some top =>
      adjust_heap (<[result := top]> arr) first 0
        (Z.of_nat last - Z.of_nat first) value
  | _, _ => arr
  end.

(** The loop of [__make_heap]:
    [while (true) {
       value = *(first + parent);
       __adjust_heap(first, parent, len, value, comp);
       if (parent == 0) return;
       parent--; }] *)
Fixpoint make_heap_loop (fuel : nat) arr first (parent len : Z) : list A :=
  match fuel with
  | 0 => arr
  | S fuel' =>
      match get arr first parent with
      | Some value =>
          let arr := adjust_heap arr first parent len value in
          if (parent =? 0)%Z then arr
          else make_heap_loop fuel' arr first (parent - 1) len
      | None => arr
      end
  end.

(** [__make_heap(first, last, comp)]:
    [if (last - first < 2) return;
     len = last - first; parent = (len - 2) / 2; ...] *)
Definition make_heap arr first last : list A :=
  if (last - first <? 2)%nat then arr
  else
    let len := (Z.of_nat last - Z.of_nat first)%Z in
    make_heap_loop (S (last - first)) arr first (Z.quot (len - 2) 2) len.

Fixpoint heap_select_loop (n : nat) arr first middle i : list A :=
  match n with
  | 0 => arr
  | S n' =>
      heap_select_loop n'
        (if comp_at arr i first then pop_heap arr first middle i else arr)
        first middle (S i)
  end.

(** [__heap_select(first, middle, last, comp)]:
    [__make_heap(first, middle, comp);
     for (i = middle; i < last; ++i)
       if (comp(i, first)) __pop_heap(first, middle, i, comp);] *)
Definition heap_select arr first middle last : list A :=
  heap_select_loop (last - middle) (make_heap arr first middle)
    first middle middle.

(** [__sort_heap(first, last, comp)]:
    [while (last - first > 1) {
       --last; __pop_heap(first, last, last, comp); }] *)
Fixpoint sort_heap (fuel : nat) arr first last : list A :=
  match fuel with
  | 0 => arr
  | S fuel' =>
      if (1 <? last - first)%nat
      then sort_heap fuel' (pop_heap arr first (last - 1) (last - 1))
             first (last - 1)
      else arr
  end.

(** [__partial_sort(first, middle, last, comp)]:
    [__heap_select(first, middle, last, comp);
     __sort_heap(first, middle, comp);] *)
Definition partial_sort arr first middle last : list A :=
  sort_heap (middle - first) (heap_select arr first middle last) first middle.

(** [__introsort_loop(first, last, depth_limit, comp)]:
    [while (last - first > int(_S_threshold)) {
       if (depth_limit == 0) {
         __partial_sort(first, last, last, comp); return; }
       --depth_limit;
       cut = __unguarded_partition_pivot(first, last, comp);
       __introsort_loop(cut, last, depth_limit, comp);
       last = cut; }] *)
Fixpoint introsort_loop (depth_limit : nat) arr first last : list A :=
  if (threshold <? last - first)%nat then
    match depth_limit with
    | 0 => partial_sort arr first last last
    | S depth_limit =>
        let '(arr, cut) := unguarded_partition_pivot arr first last in
        let arr := introsort_loop depth_limit arr cut last in
        introsort_loop depth_limit arr first cut
    end
  else arr.

(** [std::sort(first, last)], through [__sort], on the whole vector:
    [if (first != last) {
       __introsort_loop(first, last, __lg(last - first) * 2, comp);
       __final_insertion_sort(first, last, comp); }] *)
Definition sort arr : list A :=
  let first := 0%nat in
  let last := length arr in
  if decide (first = last) then arr
  else final_insertion_sort
         (introsort_loop (Nat.log2 (last - first) * 2) arr first last)
         first last.

(** The order a range is left in: no element is [comp] an element before
    it. *)
Definition ordered (a b : A) : Prop := comp b a = false.

End sort.

(** *** The sort permutes the vector *)

Section perm.
Context {A : Type} (comp : A → A → bool).
Implicit Types (arr : list A) (first last i j : nat).

Lemma insert_delete_perm arr i (x : A) :
  (i < length arr)%nat → <[i := x]> arr ≡ₚ x :: delete i arr.
Proof.
  revert i. induction arr as [|a arr IH]; intros [|i] Hi; simpl in *;
    try lia; [done|].
  rewrite IH by lia. apply Permutation_swap.
Qed.

Lemma insert_shift_perm arr i j (c v : A) :
  arr !! j = Some c → (i < length arr)%nat →
  <[j := v]> (<[i := c]> arr) ≡ₚ <[i := v]> arr.
Proof.
  revert i j. induction arr as [|a arr IH]; intros [|i] [|j] Hj Hi;
    simpl in *; try lia; try done.
  - rewrite insert_delete_perm by (by eapply lookup_lt_Some).
    rewrite Permutation_swap. f_equiv. symmetry. by apply delete_Permutation.
  - injection Hj as ->.
    rewrite !insert_delete_perm by lia. apply Permutation_swap.
  - f_equiv. apply IH; [done|lia].
Qed.

Lemma iter_swap_perm arr i j : iter_swap arr i j ≡ₚ arr.
Proof.
  unfold iter_swap.
  destruct (arr !! i) as [a|] eqn:Hi; [|done].
  destruct (arr !! j) as [b|] eqn:Hj; [|done].
  rewrite insert_shift_perm; [|done|by eapply lookup_lt_Some].
  by rewrite list_insert_id.
Qed.

Lemma move_median_to_first_perm arr r a b c :
  move_median_to_first comp arr r a b c ≡ₚ arr.
Proof.
  unfold move_median_to_first.
  repeat case_match; apply iter_swap_perm.
Qed.

Lemma unguarded_partition_perm fuel arr first last pivot :
  (unguarded_partition comp fuel arr first last pivot).1 ≡ₚ arr.
Proof.
  revert arr first last.
  induction fuel as [|fuel IH]; intros arr first last; simpl; [done|].
  case_match; [done|].
  rewrite IH. apply iter_swap_perm.
Qed.

Lemma unguarded_partition_pivot_perm arr first last :
  (unguarded_partition_pivot comp arr first last).1 ≡ₚ arr.
Proof.
  unfold unguarded_partition_pivot.
  rewrite unguarded_partition_perm. apply move_median_to_first_perm.
Qed.

Lemma push_heap_loop_perm fuel arr first hole top (value : A) :
  (first + Z.to_nat hole < length arr)%nat →
  push_heap_loop comp fuel arr first hole top value
    ≡ₚ <[(first + Z.to_nat hole)%nat := value]> arr.
Proof.
  revert arr hole.
  induction fuel as [|fuel IH]; intros arr hole Hh; simpl; [done|].
  unfold get, put.
  destruct (arr !! _) as [p|] eqn:Hp; [|done].
  case_match; [|done].
  rewrite IH.
  - by apply insert_shift_perm.
  - rewrite length_insert. by eapply lookup_lt_Some.
Qed.

Lemma adjust_heap_loop_perm fuel arr first hole sc len (v : A) :
  (first + Z.to_nat hole < length arr)%nat →
  let r := adjust_heap_loop comp fuel arr first hole sc len in
  <[(first + Z.to_nat r.1.2)%nat := v]> r.1.1
    ≡ₚ <[(first + Z.to_nat hole)%nat := v]> arr ∧
  (first + Z.to_nat r.1.2 < length r.1.1)%nat.
Proof.
  revert arr hole sc.
  induction fuel as [|fuel IH]; intros arr hole sc Hh; simpl; [done|].
  case_match; [|done].
  match goal with |- context [get arr first ?k] =>
    match k with context [if _ then _ else _] => set (sc2 := k) end end.
  destruct (get arr first sc2) as [c|] eqn:Hc; [|done].
  unfold get, put in *.
  specialize (IH (<[(first + Z.to_nat hole)%nat:=c]> arr) sc2 sc2).
  destruct IH as [IH1 IH2].
  { rewrite length_insert. by eapply lookup_lt_Some. }
  split; [|done].
  rewrite IH1. by apply insert_shift_perm.
Qed.

Lemma adjust_heap_perm arr first hole len (value : A) :
  (first + Z.to_nat hole < length arr)%nat →
  adjust_heap comp arr first hole len value
    ≡ₚ <[(first + Z.to_nat hole)%nat := value]> arr.
Proof.
  intros Hh. unfold adjust_heap.
  pose proof (adjust_heap_loop_perm (Z.to_nat len) arr first hole hole len
                value Hh) as [H1 H2].
  destruct (adjust_heap_loop _ _ _ _ _ _ _) as [[arr1 hole1] sc1].
  simpl in *.
  assert (∀ arr2 hole2,
            (first + Z.to_nat hole2 < length arr2)%nat →
            <[(first + Z.to_nat hole2)%nat := value]> arr2
              ≡ₚ <[(first + Z.to_nat hole1)%nat := value]> arr1 →
            push_heap comp arr2 first hole2 hole value
              ≡ₚ <[(first + Z.to_nat hole)%nat := value]> arr) as Hpush.
  { intros arr2 hole2 Hlt Hp. unfold push_heap.
    rewrite push_heap_loop_perm by done. by rewrite Hp. }
  destruct (_ && _); [|by apply Hpush].
  unfold get, put.
  destruct (arr1 !! _) as [c|] eqn:Hc; [|by apply Hpush].
  apply Hpush.
  - rewrite length_insert. by eapply lookup_lt_Some.
  - by apply insert_shift_perm.
Qed.

Lemma pop_heap_perm arr first last result :
  pop_heap comp arr first last result ≡ₚ arr.
Proof.
  unfold pop_heap.
  destruct (arr !! result) as [value|] eqn:Hr; [|done].
  destruct (arr !! first) as [top|] eqn:Hf; [|done].
  rewrite adjust_heap_perm.
  - replace (first + Z.to_nat 0)%nat with first by lia.
    rewrite insert_shift_perm; [|done|by eapply lookup_lt_Some].
    by rewrite list_insert_id.
  - rewrite length_insert. apply lookup_lt_Some in Hf. lia.
Qed.

Lemma make_heap_loop_perm fuel arr first parent len :
  make_heap_loop comp fuel arr first parent len ≡ₚ arr.
Proof.
  revert arr parent.
  induction fuel as [|fuel IH]; intros arr parent; simpl; [done|].
  unfold get.
  destruct (arr !! _) as [value|] eqn:Hv; [|done].
  assert (adjust_heap comp arr first parent len value ≡ₚ arr) as Ha.
  { rewrite adjust_heap_perm by (by eapply lookup_lt_Some).
    by rewrite list_insert_id. }
  case_match; [done|]. by rewrite IH.
Qed.

Lemma make_heap_perm arr first last : make_heap comp arr first last ≡ₚ arr.
Proof.
  unfold make_heap. case_match; [done|]. apply make_heap_loop_perm.
Qed.

Lemma heap_select_loop_perm n arr first middle i :
  heap_select_loop comp n arr first middle i ≡ₚ arr.
Proof.
  revert arr i. induction n as [|n IH]; intros arr i; simpl; [done|].
  rewrite IH. case_match; [apply pop_heap_perm|done].
Qed.

Lemma heap_select_perm arr first middle last :
  heap_select comp arr first middle last ≡ₚ arr.
Proof.
  unfold heap_select. rewrite heap_select_loop_perm. apply make_heap_perm.
Qed.

Lemma sort_heap_perm fuel arr first last :
  sort_heap comp fuel arr first last ≡ₚ arr.
Proof.
  revert arr last. induction fuel as [|fuel IH]; intros arr last; simpl;
    [done|].
  case_match; [|done]. rewrite IH. apply pop_heap_perm.
Qed.

Lemma partial_sort_perm arr first middle last :
  partial_sort comp arr first middle last ≡ₚ arr.
Proof.
  unfold partial_sort. rewrite sort_heap_perm. apply heap_select_perm.
Qed.

Lemma introsort_loop_perm depth_limit arr first last :
  introsort_loop comp depth_limit arr first last ≡ₚ arr.
Proof.
  revert arr first last.
  induction depth_limit as [|d IH]; intros arr first last; simpl.
  - case_match; [apply partial_sort_perm|done].
  - case_match; [|done].
    pose proof (unguarded_partition_pivot_perm arr first last) as Hp.
    destruct (unguarded_partition_pivot comp arr first last) as [arr1 cut].
    simpl in Hp. by rewrite !IH.
Qed.

End perm.

(** *** The sort leaves the vector in order

    The final insertion sort runs over the whole vector, so the result is in
    order whenever [comp] is a strict weak order. *)

Section sorted.
Context {A : Type} (comp : A → A → bool).
Implicit Types (arr : list A) (first last i j : nat).

Hypothesis comp_asym : ∀ a b, comp a b = true → comp b a = false.
Hypothesis ordered_trans :
  ∀ a b c, ordered comp a b → ordered comp b c → ordered comp a c.

Lemma StronglySorted_snoc (l : list A) (x : A) :
  StronglySorted (ordered comp) l → Forall (λ y, ordered comp y x) l →
  StronglySorted (ordered comp) (l ++ [x]).
Proof.
  intros Hs Hf. apply StronglySorted_app_2; [|done|repeat constructor].
  rewrite Forall_forall in Hf.
  intros y z Hy ->%list_elem_of_singleton. auto.
Qed.

Lemma StronglySorted_take n (l : list A) :
  StronglySorted (ordered comp) l → StronglySorted (ordered comp) (take n l).
Proof.
  intros Hs. rewrite <- (take_drop n l) in Hs.
  by apply StronglySorted_app in Hs as (_ & ? & _).
Qed.

Lemma linear_insert_loop_spec (val : A) arr last :
  (last < length arr)%nat → StronglySorted (ordered comp) (take last arr) →
  take (S last) (linear_insert_loop comp val arr last)
    ≡ₚ val :: take last arr ∧
  StronglySorted (ordered comp)
    (take (S last) (linear_insert_loop comp val arr last)) ∧
  drop (S last) (linear_insert_loop comp val arr last) = drop (S last) arr.
Proof.
  revert arr. induction last as [|next IH]; intros arr Hlen Hs.
  { destruct arr as [|a arr]; simpl in *; [lia|].
    rewrite take_0, drop_0. split_and!; [done|repeat constructor|done]. }
  simpl.
  destruct (lookup_lt_is_Some_2 arr next) as [x Hx]; [lia|].
  destruct (lookup_lt_is_Some_2 arr (S next)) as [y Hy]; [lia|].
  rewrite Hx.
  assert (StronglySorted (ordered comp) (take next arr)) as Hs'.
  { apply (StronglySorted_take next) in Hs.
    by rewrite take_take, Nat.min_l in Hs by lia. }
  rewrite (take_S_r _ _ _ Hx) in Hs.
  apply StronglySorted_app in Hs as (Hle & _ & _).
  assert (∀ z, z ∈ take next arr → ordered comp z x) as Hpre.
  { intros z Hz. apply Hle; [done|]. by apply list_elem_of_singleton. }
  destruct (comp val x) eqn:Hc.
  - destruct (IH (<[S next := x]> arr)) as (Hp & Hsorted & Hdrop).
    { rewrite length_insert. lia. }
    { by rewrite take_insert_ge by lia. }
    set (R := linear_insert_loop comp val (<[S next:=x]> arr) next) in *.
    rewrite take_insert_ge in Hp by lia.
    rewrite drop_insert_ge, Nat.sub_diag, (drop_S _ _ _ Hy) in Hdrop by lia.
    simpl in Hdrop.
    assert (R !! S next = Some x) as HR.
    { rewrite <- (Nat.add_0_r (S next)), <- lookup_drop. by rewrite Hdrop. }
    rewrite (drop_S _ _ _ HR) in Hdrop. injection Hdrop as Hdrop.
    rewrite (take_S_r _ _ _ HR), (take_S_r _ _ _ Hx).
    split_and!; [|apply StronglySorted_snoc; [done|]|done].
    + rewrite Hp. simpl. done.
    + apply Forall_forall. intros z Hz. rewrite Hp in Hz.
      apply elem_of_cons in Hz as [->|Hz]; [by apply comp_asym|by apply Hpre].
  - rewrite drop_insert_lt by lia.
    assert (<[S next := val]> arr !! S next = Some val) as HR.
    { apply list_lookup_insert_eq. lia. }
    rewrite (take_S_r _ _ _ HR), take_insert_ge by lia.
    rewrite (take_S_r _ _ _ Hx).
    split_and!; [|apply StronglySorted_snoc|done].
    + symmetry. apply Permutation_cons_append.
    + apply StronglySorted_snoc; [done|]. apply Forall_forall, Hpre.
    + apply Forall_app. split; [|by repeat constructor].
      apply Forall_forall. intros z Hz.
      apply (ordered_trans _ x); [by apply Hpre|done].
Qed.

(** One step of either insertion loop, begun with the first [i] elements in
    order, leaves the first [i + 1] in order. *)
Definition inserts (f : list A → nat → list A) : Prop :=
  ∀ arr i, (i < length arr)%nat → StronglySorted (ordered comp) (take i arr) →
    f arr i ≡ₚ arr ∧ StronglySorted (ordered comp) (take (S i) (f arr i)).

Lemma unguarded_linear_insert_inserts :
  inserts (unguarded_linear_insert comp).
Proof.
  intros arr i Hi Hs. unfold unguarded_linear_insert.
  destruct (lookup_lt_is_Some_2 arr i) as [val Hv]; [lia|].
  rewrite Hv.
  destruct (linear_insert_loop_spec val arr i Hi Hs) as (Hp & Hsorted & Hd).
  split; [|done].
  rewrite <- (take_drop (S i) (linear_insert_loop comp val arr i)).
  rewrite Hp, Hd. rewrite <- (take_drop_middle _ _ _ Hv) at 3.
  simpl. by rewrite Permutation_middle.
Qed.

Lemma insertion_step_inserts :
  inserts (λ arr i, insertion_step comp arr 0 i).
Proof.
  intros arr i Hi Hs. unfold insertion_step.
  destruct (comp_at comp arr i 0) eqn:Hc;
    [|by apply unguarded_linear_insert_inserts].
  unfold comp_at in Hc.
  destruct (arr !! i) as [val|] eqn:Hv; [|done].
  destruct (arr !! 0%nat) as [a0|] eqn:H0; [|done].
  rewrite take_0, drop_0, Nat.sub_0_r. simpl.
  split.
  - rewrite <- (take_drop_middle _ _ _ Hv) at 3. by rewrite Permutation_middle.
  - rewrite take_app_le by (rewrite length_take; lia).
    rewrite take_take, Nat.min_id.
    constructor; [done|].
    apply Forall_forall. intros z Hz.
    apply (ordered_trans _ a0); [by apply comp_asym|].
    destruct arr as [|a arr]; [done|]. injection H0 as ->.
    destruct i as [|i]; [by apply elem_of_nil in Hz|].
    simpl in Hz, Hs. apply StronglySorted_cons in Hs as [Hall _].
    apply elem_of_cons in Hz as [->|Hz].
    + destruct (comp a0 a0) eqn:E; [|done]. by rewrite (comp_asym _ _ E) in E.
    + rewrite Forall_forall in Hall. by apply Hall.
Qed.

Lemma insertion_loop_sorted n arr i :
  (i + n ≤ length arr)%nat → StronglySorted (ordered comp) (take i arr) →
  insertion_loop comp n arr 0 i ≡ₚ arr ∧
  StronglySorted (ordered comp) (take (i + n) (insertion_loop comp n arr 0 i)).
Proof.
  revert arr i. induction n as [|n IH]; intros arr i Hlen Hs; simpl.
  { by rewrite Nat.add_0_r. }
  destruct (insertion_step_inserts arr i) as [Hp Hs']; [lia|done|].
  destruct (IH (insertion_step comp arr 0 i) (S i)) as [Hp2 Hs2];
    [rewrite Hp; lia|done|].
  split; [by rewrite Hp2|].
  by replace (i + S n)%nat with (S i + n)%nat by lia.
Qed.

Lemma unguarded_insertion_loop_sorted n arr i :
  (i + n ≤ length arr)%nat → StronglySorted (ordered comp) (take i arr) →
  unguarded_insertion_loop comp n arr i ≡ₚ arr ∧
  StronglySorted (ordered comp)
    (take (i + n) (unguarded_insertion_loop comp n arr i)).
Proof.
  revert arr i. induction n as [|n IH]; intros arr i Hlen Hs; simpl.
  { by rewrite Nat.add_0_r. }
  destruct (unguarded_linear_insert_inserts arr i) as [Hp Hs']; [lia|done|].
  destruct (IH (unguarded_linear_insert comp arr i) (S i)) as [Hp2 Hs2];
    [rewrite Hp; lia|done|].
  split; [by rewrite Hp2|].
  by replace (i + S n)%nat with (S i + n)%nat by lia.
Qed.

Lemma insertion_sort_sorted arr last :
  (last ≤ length arr)%nat →
  insertion_sort comp arr 0 last ≡ₚ arr ∧
  StronglySorted (ordered comp) (take last (insertion_sort comp arr 0 last)).
Proof.
  intros Hlen. unfold insertion_sort.
  case_decide as Hl; [subst; rewrite take_0; split; [done|constructor]|].
  destruct (insertion_loop_sorted (last - 1) arr 1) as [Hp Hs]; [lia| |].
  { destruct arr as [|a arr]; simpl; rewrite ?take_0; repeat constructor. }
  split; [done|].
  by replace (1 + (last - 1))%nat with last in Hs by lia.
Qed.

Lemma final_insertion_sort_sorted arr :
  final_insertion_sort comp arr 0 (length arr) ≡ₚ arr ∧
  StronglySorted (ordered comp) (final_insertion_sort comp arr 0 (length arr)).
Proof.
  unfold final_insertion_sort.
  destruct (threshold <? length arr - 0)%nat eqn:Hth.
  - apply Nat.ltb_lt in Hth. rewrite Nat.add_0_l.
    destruct (insertion_sort_sorted arr threshold) as [Hp Hs]; [lia|].
    unfold unguarded_insertion_sort.
    destruct (unguarded_insertion_loop_sorted (length arr - threshold)
                (insertion_sort comp arr 0 threshold) threshold)
      as [Hp2 Hs2]; [rewrite Hp; lia|done|].
    split; [by rewrite Hp2|].
    rewrite take_ge in Hs2; [done|]. rewrite Hp2, Hp. lia.
  - destruct (insertion_sort_sorted arr (length arr)) as [Hp Hs]; [lia|].
    split; [done|]. rewrite take_ge in Hs; [done|]. by rewrite Hp.
Qed.

Lemma sort_spec arr :
  sort comp arr ≡ₚ arr ∧ StronglySorted (ordered comp) (sort comp arr).
Proof.
  unfold sort. case_decide as Hl.
  { destruct arr; [|done]. split; [done|constructor]. }
  pose proof (introsort_loop_perm comp (Nat.log2 (length arr - 0) * 2) arr 0
                (length arr)) as Hp.
  set (arr1 := introsort_loop _ _ _ _ _) in *.
  rewrite <- (Permutation_length Hp).
  destruct (final_insertion_sort_sorted arr1) as [Hp1 Hs].
  split; [by rewrite Hp1|done].
Qed.

End sorted.

(** *** Elements that compare equal

    On a range of at most [threshold] elements the sort is the insertion sort
    alone.  It moves an element only past elements that it is [comp] to, so
    the elements of a set [P] that holds no two elements related by [comp]
    keep their order. *)

Section ties.
Context {A : Type} (comp : A → A → bool).
Context (P : A → Prop) `{∀ x, Decision (P x)}.
Implicit Types (arr : list A) (first last i j : nat).

Hypothesis comp_asym : ∀ a b, comp a b = true → comp b a = false.
Hypothesis ordered_trans :
  ∀ a b c, ordered comp a b → ordered comp b c → ordered comp a c.
Hypothesis comp_P : ∀ a b, comp a b = true → P a → ¬ P b.

Lemma filter_none (l : list A) :
  Forall (λ y, ¬ P y) l → filter P l = [].
Proof.
  induction 1 as [|y l Hy _ IH]; [done|].
  by rewrite filter_cons, decide_False, IH.
Qed.

Lemma filter_snoc_swap (l : list A) (x val : A) :
  comp val x = true →
  filter P (l ++ [val] ++ [x]) = filter P (l ++ [x] ++ [val]).
Proof.
  intros Hc. rewrite !filter_app. f_equal.
  rewrite !filter_cons, !filter_nil.
  repeat case_decide; try done. by destruct (comp_P _ _ Hc).
Qed.

Lemma linear_insert_loop_drop (val : A) arr last :
  (last < length arr)%nat →
  drop (S last) (linear_insert_loop comp val arr last) = drop (S last) arr.
Proof.
  revert arr. induction last as [|next IH]; intros arr Hlen; simpl.
  { by destruct arr. }
  destruct (arr !! next) as [x|]; [|by rewrite drop_insert_lt by lia].
  destruct (comp val x); [|by rewrite drop_insert_lt by lia].
  replace (S (S next)) with (S next + 1)%nat by lia.
  rewrite <- drop_drop, IH by (rewrite length_insert; lia).
  by rewrite drop_drop, drop_insert_lt by lia.
Qed.

Lemma linear_insert_loop_filter (val : A) arr last :
  (last < length arr)%nat →
  filter P (take (S last) (linear_insert_loop comp val arr last)) =
    filter P (take last arr ++ [val]).
Proof.
  revert arr. induction last as [|next IH]; intros arr Hlen.
  { destruct arr as [|a arr]; simpl in *; [lia|]. by rewrite take_0. }
  simpl.
  destruct (lookup_lt_is_Some_2 arr next) as [x Hx]; [lia|].
  destruct (lookup_lt_is_Some_2 arr (S next)) as [y Hy]; [lia|].
  rewrite Hx.
  destruct (comp val x) eqn:Hc.
  - pose proof (linear_insert_loop_drop val (<[S next:=x]> arr) next) as Hd.
    rewrite length_insert in Hd. specialize (Hd ltac:(lia)).
    rewrite drop_insert_ge, Nat.sub_diag, (drop_S _ _ _ Hy) in Hd by lia.
    simpl in Hd.
    specialize (IH (<[S next:=x]> arr)). rewrite length_insert in IH.
    specialize (IH ltac:(lia)). rewrite take_insert_ge in IH by lia.
    set (R := linear_insert_loop comp val (<[S next:=x]> arr) next) in *.
    assert (R !! S next = Some x) as HR.
    { rewrite <- (Nat.add_0_r (S next)), <- lookup_drop. by rewrite Hd. }
    rewrite (take_S_r _ _ _ HR), (take_S_r _ _ _ Hx).
    rewrite filter_app, IH, <- filter_app, <- !(assoc_L (++)).
    by apply filter_snoc_swap.
  - assert (<[S next := val]> arr !! S next = Some val) as HR.
    { apply list_lookup_insert_eq. lia. }
    by rewrite (take_S_r _ _ _ HR), take_insert_ge by lia.
Qed.

Lemma unguarded_linear_insert_filter arr i :
  (i < length arr)%nat →
  filter P (unguarded_linear_insert comp arr i) = filter P arr.
Proof.
  intros Hi. unfold unguarded_linear_insert.
  destruct (lookup_lt_is_Some_2 arr i) as [val Hv]; [lia|].
  rewrite Hv.
  rewrite <- (take_drop (S i) (linear_insert_loop comp val arr i)).
  rewrite filter_app, linear_insert_loop_filter, linear_insert_loop_drop,
    <- filter_app, <- (assoc_L (++)) by done.
  simpl. by rewrite (take_drop_middle _ _ _ Hv).
Qed.

Lemma insertion_step_filter arr i :
  (i < length arr)%nat → StronglySorted (ordered comp) (take i arr) →
  filter P (insertion_step comp arr 0 i) = filter P arr.
Proof.
  intros Hi Hs. unfold insertion_step.
  destruct (comp_at comp arr i 0) eqn:Hc;
    [|by apply unguarded_linear_insert_filter].
  unfold comp_at in Hc.
  destruct (arr !! i) as [val|] eqn:Hv; [|done].
  destruct (arr !! 0%nat) as [a0|] eqn:H0; [|done].
  rewrite take_0, drop_0, Nat.sub_0_r. simpl.
  rewrite <- (take_drop_middle _ _ _ Hv) at 3.
  rewrite filter_cons, !filter_app, filter_cons.
  case_decide as HP; [|done].
  assert (filter P (take i arr) = []) as ->; [|done].
  apply filter_none, Forall_forall. intros y Hy.
  apply (comp_P val); [|done].
  destruct (comp val y) eqn:E; [done|].
  assert (ordered comp a0 y) as Hay.
  { destruct arr as [|a arr]; [done|]. injection H0 as ->.
    destruct i as [|i]; [by apply elem_of_nil in Hy|].
    simpl in Hy, Hs. apply StronglySorted_cons in Hs as [Hall _].
    apply elem_of_cons in Hy as [->|Hy].
    - unfold ordered. destruct (comp a0 a0) eqn:E0; [|done].
      by rewrite (comp_asym _ _ E0) in E0.
    - rewrite Forall_forall in Hall. by apply Hall. }
  pose proof (ordered_trans _ _ _ Hay E) as Hav.
  unfold ordered in Hav. congruence.
Qed.

Lemma insertion_loop_filter n arr i :
  (i + n ≤ length arr)%nat → StronglySorted (ordered comp) (take i arr) →
  filter P (insertion_loop comp n arr 0 i) = filter P arr.
Proof.
  revert arr i. induction n as [|n IH]; intros arr i Hlen Hs; simpl; [done|].
  destruct (insertion_step_inserts comp comp_asym ordered_trans arr i)
    as [Hp Hs']; [lia|done|].
  rewrite IH; [|rewrite Hp; lia|done].
  apply insertion_step_filter; [lia|done].
Qed.

(** Up to [threshold] elements, [sort] keeps the elements of [P] in order. *)
Lemma sort_filter_upto_threshold arr :
  (length arr ≤ threshold)%nat → filter P (sort comp arr) = filter P arr.
Proof.
  intros Hlen. unfold sort. case_decide as Hn; [done|].
  assert (∀ d, introsort_loop comp d arr 0 (length arr) = arr) as ->.
  { intros [|d]; simpl;
      by rewrite (proj2 (Nat.ltb_ge _ _)) by lia. }
  unfold final_insertion_sort.
  rewrite (proj2 (Nat.ltb_ge _ _)) by lia.
  unfold insertion_sort. rewrite decide_False by done.
  apply insertion_loop_filter; [lia|].
  destruct arr as [|a arr]; simpl; rewrite ?take_0; repeat constructor.
Qed.

End ties.

End Libstdcxx.

(** ** Two implementations of std::sort

    Both meet the postcondition of [std::sort].  [insertion_sort] keeps equal
    elements in order; [libstdcxx_sort], the sort of libstdc++ run on
    [StreamIndex::operator<], does not. *)

Module Sorts.

Import StreamIndex.

Fixpoint insert (x : StreamIndex.t) (l : list StreamIndex.t)
  : list StreamIndex.t :=
  match l with
  | [] => [x]
  | y :: l' => if lt y x then y :: insert x l' else x :: l
  end.

Definition isort (l : list StreamIndex.t) : list StreamIndex.t :=
  foldr insert [] l.

Lemma ordered_le a b : ordered a b ↔ time a <= time b.
Proof. unfold ordered, lt. rewrite Z.ltb_ge. reflexivity. Qed.

Lemma insert_perm x l : insert x l ≡ₚ x :: l.
Proof.
  induction l as [|y l IH]; simpl; [done|].
  destruct (lt y x); [|done].
  rewrite IH. apply Permutation_swap.
Qed.

Lemma isort_perm l : isort l ≡ₚ l.
Proof.
  induction l as [|x l IH]; simpl; [done|].
  rewrite insert_perm. by f_equiv.
Qed.

Lemma insert_sorted x l :
  StronglySorted ordered l → StronglySorted ordered (insert x l).
Proof.
  induction 1 as [|y l Hs IH Hy]; simpl.
  - repeat constructor.
  - destruct (lt y x) eqn:E.
    + constructor; [done|].
      rewrite insert_perm. constructor; [|done].
      apply ordered_le. unfold lt in E. apply Z.ltb_lt in E. lia.
    + constructor; [by constructor|].
      assert (time x <= time y) by (unfold lt in E; by apply Z.ltb_ge in E).
      constructor; [by apply ordered_le|].
      eapply Forall_impl; [exact Hy|].
      intros z Hz. apply ordered_le. apply ordered_le in Hz. lia.
Qed.

Lemma isort_sorted l : StronglySorted ordered (isort l).
Proof.
  induction l; simpl; [constructor | by apply insert_sorted].
Qed.

Definition insertion_sort : StdSort :=
  {| sort := isort; sort_perm := isort_perm; sort_sorted := isort_sorted |}.

Lemma at_time_insert t x l :
  StronglySorted ordered l →
  at_time t (insert x l) = at_time t (x :: l).
Proof.
  unfold at_time.
  induction 1 as [|y l Hs IH Hy]; simpl; [done|].
  destruct (lt y x) eqn:E; [|done].
  unfold lt in E. apply Z.ltb_lt in E.
  rewrite !filter_cons in *.
  rewrite IH.
  repeat case_decide; try done; lia.
Qed.

Lemma insertion_sort_stable : stable insertion_sort.
Proof.
  intros l t. simpl.
  induction l as [|x l IH]; simpl; [done|].
  rewrite at_time_insert by apply isort_sorted.
  unfold at_time in *. rewrite !filter_cons, IH. done.
Qed.

(** [std::sort(items.begin(), items.end())] with libstdc++:
    [StreamIndex::operator<] is a strict weak order, so the sort meets the
    postcondition. *)
Lemma libstdcxx_sort_spec l :
  Libstdcxx.sort lt l ≡ₚ l ∧ StronglySorted ordered (Libstdcxx.sort lt l).
Proof.
  apply (Libstdcxx.sort_spec lt).
  - unfold lt. intros a b Hab. apply Z.ltb_lt in Hab. apply Z.ltb_ge. lia.
  - intros a b c Hab Hbc. apply ordered_le in Hab, Hbc. apply ordered_le. lia.
Qed.

Definition libstdcxx_sort : StdSort :=
  {| sort := Libstdcxx.sort lt;
     sort_perm l := proj1 (libstdcxx_sort_spec l);
     sort_sorted l := proj2 (libstdcxx_sort_spec l) |}.

(** Up to sixteen elements that sort keeps elements of equal time in
    order. *)
Lemma libstdcxx_sort_keeps_ties l t :
  (length l ≤ Libstdcxx.threshold)%nat →
  at_time t (sort (StdSort := libstdcxx_sort) l) = at_time t l.
Proof.
  intros Hlen. unfold at_time. simpl.
  apply (Libstdcxx.sort_filter_upto_threshold lt); [| | |done].
  - unfold lt. intros a b Hab. apply Z.ltb_lt in Hab. apply Z.ltb_ge. lia.
  - intros a b c Hab Hbc. apply ordered_le in Hab, Hbc. apply ordered_le. lia.
  - unfold lt. intros a b Hab%Z.ltb_lt Ha Hb. lia.
Qed.

End Sorts.


Import SampleReader.

(** ** A concrete aggregator

    Two payload types, integer payloads, and a few aggregator states reached
    through the interface, on which the statements below are instantiated. *)

Module Demo.

Inductive payload_type := TInt | TDouble.

#[global] Instance payload_type_eq_dec : EqDecision payload_type.
Proof. solve_decision. Defined.

Definition reader : Type := SampleReader.t payload_type Z.

(** [SampleReader r(Time(2)); r.registerStream<int>(cb, 10);
     r.push<int>(0, Time(10), 5);] *)
Definition one_stream_at_10 : reader :=
  run (Sort := Sorts.insertion_sort)
    [OpRegister TInt 10 0; OpPush 0 TInt 10 5] (SampleReader.new 2).

(** Two streams of period 0 with one sample each, both stamped 5. *)
Definition two_streams_tied : reader :=
  run (Sort := Sorts.insertion_sort)
    [OpRegister TInt 10 0; OpRegister TInt 10 0;
     OpPush 0 TInt 5 100; OpPush 1 TInt 5 200] (SampleReader.new 2).

(** Seventeen streams of period 0 with one sample each, all stamped 5;
    stream [i] holds the payload [100 + i]. *)
Definition seventeen_streams_tied : reader :=
  run (Sort := Sorts.insertion_sort)
    (replicate 17 (OpRegister TInt 10 0) ++
     ((λ i : nat, OpPush (Z.of_nat i) TInt 5 (100 + Z.of_nat i)) <$>
        seq 0 17))
    (SampleReader.new 2).

(** A stream of capacity 2 holding two samples. *)
Definition full_stream : Stream.t payload_type Z :=
  Stream.mk TInt [(1, 10); (2, 20)] 2 0 2 false.

End Demo.

(** * Properties *)

(** The scenarios of the specification that do not depend on the order of
    equal candidates, run on the model (time in microseconds). *)

(** Timeout skip: stream 1 never receives data and is passed over. *)
Example scenario_timeout_skip :
  calls (run (Sort := Sorts.insertion_sort)
           ([OpRegister Demo.TInt 10 1; OpRegister Demo.TInt 10 1;
             OpPush 0 Demo.TInt 1 10; OpPush 0 Demo.TInt 2 11;
             OpPush 0 Demo.TInt 3 12; OpPush 0 Demo.TInt 4 13;
             OpPush 0 Demo.TInt 5 14] ++ repeat OpStep 6)
           (SampleReader.new 2)) =
    [(0%nat, 1, 10); (0%nat, 2, 11); (0%nat, 3, 12); (0%nat, 4, 13);
     (0%nat, 5, 14)].
Proof. reflexivity. Qed.

(** Stale drop on push. *)
Example scenario_stale_drop :
  calls (run (Sort := Sorts.insertion_sort)
           ([OpRegister Demo.TInt 10 1; OpRegister Demo.TInt 10 1;
             OpPush 0 Demo.TInt 10 1; OpPush 1 Demo.TInt 7 2]
            ++ repeat OpStep 4)
           (SampleReader.new 2)) =
    [(0%nat, 10, 1)].
Proof. reflexivity. Qed.

(** Drop-oldest overflow. *)
Example scenario_overflow :
  calls (run (Sort := Sorts.insertion_sort)
           ([OpRegister Demo.TInt 2 0;
             OpPush 0 Demo.TInt 1 10; OpPush 0 Demo.TInt 2 20;
             OpPush 0 Demo.TInt 3 30] ++ repeat OpStep 3)
           (SampleReader.new 2)) =
    [(0%nat, 2, 20); (0%nat, 3, 30)].
Proof. reflexivity. Qed.

(** Non-monotonic push ignored. *)
Example scenario_non_monotonic :
  calls (run (Sort := Sorts.insertion_sort)
           ([OpRegister Demo.TInt 10 0;
             OpPush 0 Demo.TInt 5 1; OpPush 0 Demo.TInt 3 2]
            ++ repeat OpStep 2)
           (SampleReader.new 2)) =
    [(0%nat, 5, 1)].
Proof. reflexivity. Qed.

(** ** push *)

Section push_properties.
Context {Ty Val : Type} `{EqDecision Ty}.
Implicit Types (s : SampleReader.t Ty Val) (st : Stream.t Ty Val).
Implicit Types (idx : Z) (T : Ty) (ts : Time) (data : Val).

Lemma push_negative_index s idx T ts data :
  idx < 0 → push s idx T ts data = Throw "invalid stream index." s.
Proof. intros Hi. unfold push. by rewrite (proj2 (Z.ltb_lt _ _) Hi). Qed.

Lemma push_stale s idx T ts data :
  0 <= idx → ts + timeout s < latest_ts s → push s idx T ts data = Return s.
Proof.
  intros Hi Hs. unfold push.
  rewrite (proj2 (Z.ltb_ge _ _) Hi), (proj2 (Z.ltb_lt _ _) Hs). done.
Qed.

(** What [push] does once the index is not negative and the sample is not
    stale: [latest_ts] is raised first, the stream is looked up after. *)
Lemma push_fresh s idx T ts data :
  0 <= idx → latest_ts s <= ts + timeout s →
  push s idx T ts data =
    let s1 := set_latest_ts (Z.max (latest_ts s) ts) s in
    match streams s !! Z.to_nat idx with
    | None => Undefined
    | Some st =>
        if decide (Stream.elem st = T)
        then Return (set_streams
                       (<[Z.to_nat idx := Stream.push st ts data]> (streams s))
                       s1)
        else AssertFail s1
    end.
Proof.
  intros Hi Hs. unfold push.
  rewrite (proj2 (Z.ltb_ge _ _) Hi), (proj2 (Z.ltb_ge _ _) Hs).
  destruct (Z.ltb_spec (latest_ts s) ts).
  - rewrite Z.max_r by lia. done.
  - rewrite Z.max_l by lia. by destruct s.
Qed.

End push_properties.

(** ** What step and push leave of a stream *)

Section stream_frame.
Context {Ty Val : Type}.
Implicit Types (st : Stream.t Ty Val) (buf : list (Time * Val)).

#[global] Instance shrinks_refl : Reflexive (@shrinks Ty Val).
Proof. intros st. by repeat split. Qed.

#[global] Instance shrinks_trans : Transitive (@shrinks Ty Val).
Proof.
  intros a b c (?&?&?&?&?) (?&?&?&?&?).
  repeat split; try congruence. by etrans.
Qed.

Lemma drop_late_suffix cur buf : Stream.drop_late cur buf `suffix_of` buf.
Proof.
  induction buf as [|[t v] buf IH]; simpl; [done|].
  destruct (t <? cur); [by apply suffix_cons_r | done].
Qed.

Lemma drop_late_front cur buf t v tl :
  Stream.drop_late cur buf = (t, v) :: tl → cur <= t.
Proof.
  induction buf as [|[t' v'] buf IH]; simpl; [done|].
  destruct (Z.ltb_spec t' cur); [done|].
  intros [= -> -> ->]. done.
Qed.

Lemma drop_late_id cur buf :
  Forall (λ x, cur <= x.1) buf → Stream.drop_late cur buf = buf.
Proof.
  destruct 1 as [|[t v] buf Ht _]; simpl in *; [done|].
  by rewrite (proj2 (Z.ltb_ge _ _) Ht).
Qed.

Lemma throw_out_late_shrinks cur st :
  shrinks st (Stream.throw_out_late cur st).
Proof. repeat split. apply drop_late_suffix. Qed.

Lemma set_overdue_shrinks b st : shrinks st (Stream.set_overdue b st).
Proof. by repeat split. Qed.

Lemma make_space_cons n x buf :
  Stream.make_space n (x :: buf) =
    if (0 <? n)%nat && (n <=? S (length buf))%nat
    then Stream.make_space n buf else x :: buf.
Proof. reflexivity. Qed.

Lemma make_space_suffix n buf : Stream.make_space n buf `suffix_of` buf.
Proof.
  induction buf as [|x buf IH]; [done|].
  rewrite make_space_cons.
  destruct (_ && _); [by apply suffix_cons_r | done].
Qed.

Lemma make_space_length n buf :
  (0 < n)%nat → (length (Stream.make_space n buf) < n)%nat.
Proof.
  intros Hn. induction buf as [|x buf IH]; [done|].
  rewrite make_space_cons.
  destruct (Nat.ltb_spec 0 n); [|lia].
  destruct (Nat.leb_spec n (S (length buf))); simpl; done.
Qed.

Lemma make_space_room n buf :
  (n = 0 ∨ length buf < n)%nat → Stream.make_space n buf = buf.
Proof.
  intros Hn. destruct buf as [|x buf]; [done|].
  rewrite make_space_cons. simpl in Hn.
  destruct (Nat.ltb_spec 0 n); simpl; [|done].
  destruct (Nat.leb_spec n (S (length buf))); [lia | done].
Qed.

Lemma make_space_full n x buf :
  (0 < n)%nat → length (x :: buf) = n → Stream.make_space n (x :: buf) = buf.
Proof.
  intros Hn Hl. simpl in Hl. rewrite make_space_cons.
  destruct (Nat.ltb_spec 0 n); [|lia].
  destruct (Nat.leb_spec n (S (length buf))); [|lia]. simpl.
  apply make_space_room. lia.
Qed.

End stream_frame.

(** ** The two loops of step *)

Section step_loops.
Context {Ty Val : Type} `{EqDecision Ty}.
Implicit Types (s : SampleReader.t Ty Val) (st : Stream.t Ty Val).
Implicit Types (sts : list (Stream.t Ty Val)) (it : StreamIndex.t).

Lemma collect_streams cur i sts :
  (collect cur i sts).1.1 = Stream.throw_out_late cur <$> sts.
Proof.
  revert i. induction sts as [|st sts IH]; intros i; simpl; [done|].
  specialize (IH (S i)). destruct (collect cur (S i) sts) as [[r its] b].
  simpl in IH. subst r. by destruct (_ || _).
Qed.

Lemma collect_items cur i sts :
  (collect cur i sts).1.2 =
    filter considered (imap (λ j, candidate cur (i + j)) sts).
Proof.
  revert i. induction sts as [|st sts IH]; intros i; simpl; [done|].
  specialize (IH (S i)). destruct (collect cur (S i) sts) as [[r its] b].
  simpl in IH. subst its.
  rewrite filter_cons. simpl. rewrite Nat.add_0_r.
  assert (imap (λ j, candidate cur (S (i + j))) sts =
          imap ((λ j, candidate cur (i + j)) ∘ S) sts) as ->.
  { apply imap_ext. intros j x _. simpl. f_equal. lia. }
  case_decide as Hc; unfold considered, candidate in Hc; simpl in Hc;
    destruct (_ || _); done.
Qed.

Lemma collect_listHasData cur i sts :
  (collect cur i sts).2 = true ↔
  ∃ it, it ∈ (collect cur i sts).1.2 ∧ StreamIndex.hasData it = true.
Proof.
  revert i. induction sts as [|st sts IH]; intros i; simpl.
  - split; [done|]. intros (it & Hit & _). by apply elem_of_nil in Hit.
  - specialize (IH (S i)). destruct (collect cur (S i) sts) as [[r its] b].
    simpl in IH.
    destruct (Stream.hasData (Stream.throw_out_late cur st)) eqn:Hd; simpl.
    + split; [|done]. intros _. eexists. split; [apply list_elem_of_here|done].
    + destruct (negb _); simpl; rewrite IH.
      * split; intros (it & Hit & Hh).
        -- exists it. split; [by apply list_elem_of_further | done].
        -- apply elem_of_cons in Hit as [->|Hit]; [simpl in Hh; congruence|].
           eauto.
      * done.
Qed.

(** Every candidate names a stream of the vector, and one that has data
    carries the time of the sample at the front of the swept queue. *)
Lemma collect_elem_of cur sts it :
  it ∈ (collect cur 0 sts).1.2 →
  ∃ st, sts !! StreamIndex.stream it = Some st ∧
        it = candidate cur (StreamIndex.stream it) st.
Proof.
  rewrite collect_items. intros [_ Hit]%list_elem_of_filter.
  apply elem_of_lookup_imap in Hit as (j & st & -> & Hst).
  exists st. simpl. done.
Qed.

Lemma candidate_front cur i st :
  StreamIndex.hasData (candidate cur i st) = true →
  ∃ v tl, Stream.drop_late cur (Stream.buffer st) =
            (StreamIndex.time (candidate cur i st), v) :: tl.
Proof.
  unfold candidate, Stream.hasData, Stream.nextTimeStamp. simpl.
  destruct (Stream.drop_late cur (Stream.buffer st)) as [|[t v] tl];
    [done | eauto].
Qed.

End step_loops.

(** ** What one call of step does *)

Section step_effect.
Context {Ty Val : Type} `{EqDecision Ty}.
Implicit Types (s : SampleReader.t Ty Val) (st : Stream.t Ty Val).
Implicit Types (sts : list (Stream.t Ty Val)) (it : StreamIndex.t).

Lemma Forall2_shrinks_refl sts : Forall2 shrinks sts sts.
Proof. induction sts; constructor; done. Qed.

Lemma Forall2_shrinks_trans sts1 sts2 sts3 :
  Forall2 shrinks sts1 sts2 → Forall2 shrinks sts2 sts3 →
  Forall2 shrinks sts1 sts3.
Proof.
  intros H1. revert sts3. induction H1; inversion 1; subst; constructor.
  - by etrans.
  - auto.
Qed.

Lemma Forall2_shrinks_insert sts i st st' :
  sts !! i = Some st → shrinks st st' →
  Forall2 shrinks sts (<[i := st']> sts).
Proof.
  intros Hi Hs. rewrite <- (list_insert_id sts i st) at 1 by done.
  apply Forall2_insert; [apply Forall2_shrinks_refl | done].
Qed.

Lemma mark_overdue_frame i s :
  timeout (mark_overdue i s) = timeout s ∧
  latest_ts (mark_overdue i s) = latest_ts s ∧
  current_ts (mark_overdue i s) = current_ts s ∧
  calls (mark_overdue i s) = calls s ∧
  Forall2 shrinks (streams s) (streams (mark_overdue i s)).
Proof.
  unfold mark_overdue. destruct (streams s !! i) as [st|] eqn:Hi; simpl.
  - repeat split.
    eapply Forall2_shrinks_insert; [done | apply set_overdue_shrinks].
  - repeat split. apply Forall2_shrinks_refl.
Qed.

Lemma mark_overdue_lookup i j s st :
  streams s !! j = Some st →
  ∃ st', streams (mark_overdue i s) !! j = Some st' ∧
         Stream.buffer st' = Stream.buffer st.
Proof.
  intros Hj. unfold mark_overdue.
  destruct (streams s !! i) as [sti|] eqn:Hi; simpl; [|eauto].
  destruct (decide (i = j)) as [->|Hne].
  - rewrite list_lookup_insert_eq by (by eapply lookup_lt_Some).
    eexists. split; [done|]. simpl. congruence.
  - rewrite list_lookup_insert_ne by done. eauto.
Qed.

Lemma scan_post cur items s :
  (∀ it, it ∈ items → StreamIndex.hasData it = true →
     ∃ st v tl, streams s !! StreamIndex.stream it = Some st ∧
        Stream.buffer st = (StreamIndex.time it, v) :: tl ∧
        cur <= StreamIndex.time it) →
  step_post cur s (scan items s).
Proof.
  revert s. induction items as [|it items IH]; intros s Hits; simpl.
  - repeat split; [apply Forall2_shrinks_refl | by left].
  - destruct (StreamIndex.hasData it) eqn:Hd.
    + destruct (Hits it) as (st & v & tl & Hst & Hbuf & Hcur);
        [apply list_elem_of_here | done |].
      unfold pop_stream, Stream.pop. rewrite Hst, Hbuf. simpl.
      repeat split.
      * eapply Forall2_shrinks_insert; [done|].
        repeat split. simpl. rewrite Hbuf. by apply suffix_cons_r.
      * right. split; [done|].
        exists (StreamIndex.stream it), (StreamIndex.time it), v, st.
        eexists. simpl. split_and!; [done .. | |].
        -- apply list_lookup_insert_eq. by eapply lookup_lt_Some.
        -- simpl. by rewrite Hbuf.
    + destruct (latest_ts s <? StreamIndex.time it + timeout s).
      { repeat split; [apply Forall2_shrinks_refl | by left]. }
      destruct (mark_overdue_frame (StreamIndex.stream it) s)
        as (Ht & Hl & Hc & Hcalls & Hsh).
      destruct (IH (mark_overdue (StreamIndex.stream it) s))
        as (Ht' & Hl' & Hsh' & Hcase).
      { intros it' Hin Hd'.
        destruct (Hits it') as (st & v & tl & Hst & Hbuf & Hcur);
          [by apply list_elem_of_further | done |].
        destruct (mark_overdue_lookup (StreamIndex.stream it) _ _ _ Hst)
          as (st' & Hst' & Hb).
        exists st', v, tl. by rewrite Hb. }
      split; [congruence|]. split; [congruence|].
      split; [by eapply Forall2_shrinks_trans|].
      destruct Hcase as [(Hr & Hca & Hcu)|(Hr & i & t & v & stm & st' & Hcase)].
      * left. repeat split; congruence.
      * right. split; [done|].
        destruct Hcase as (? & ? & Hca & Hm & Hst' & Hsuf).
        destruct (Forall2_lookup_r _ _ _ _ _ Hsh Hm) as (st & Hst & Hs).
        exists i, t, v, st, st'. repeat split; try done; [congruence|].
        etrans; [exact Hsuf|]. apply Hs.
Qed.

Lemma step_post_step {Sort : StdSort} s : step_post (current_ts s) s (step s).
Proof.
  unfold step.
  destruct (streams s) as [|st0 sts0] eqn:Hs.
  { repeat split; simpl; rewrite ?Hs; [constructor | by left]. }
  rewrite <- Hs. clear st0 sts0 Hs.
  pose proof (collect_streams (current_ts s) 0 (streams s)) as Hsts.
  pose proof (collect_elem_of (current_ts s) (streams s)) as Hin.
  destruct (collect (current_ts s) 0 (streams s)) as [[sts items] lhd].
  simpl in Hsts, Hin. subst sts.
  set (s1 := set_streams _ s).
  assert (Forall2 shrinks (streams s) (streams s1)) as Hsweep.
  { simpl. apply Forall2_fmap_r.
    eapply Forall2_impl; [apply Forall2_shrinks_refl|].
    intros a b Hab. simpl. etrans; [exact Hab|].
    apply throw_out_late_shrinks. }
  assert (step_post (current_ts s) s (false, s1)) as Hquiet.
  { repeat split; [done | by left]. }
  destruct items as [|it0 items0] eqn:Hitems; [done|].
  rewrite <- Hitems in *. clear it0 items0 Hitems.
  destruct lhd; simpl; [|done].
  destruct (scan_post (current_ts s) (sort items) s1)
    as (Ht & Hl & Hsh & Hcase).
  { intros it Hit Hd. rewrite sort_perm in Hit.
    destruct (Hin it Hit) as (st & Hst & Hcand).
    rewrite Hcand in Hd. apply candidate_front in Hd as (v & tl & Hfront).
    rewrite <- Hcand in Hfront.
    exists (Stream.throw_out_late (current_ts s) st), v, tl.
    split; [|split].
    - simpl. by rewrite list_lookup_fmap, Hst.
    - done.
    - by eapply drop_late_front. }
  split; [done|]. split; [done|].
  split; [by eapply Forall2_shrinks_trans|].
  destruct Hcase as [?|(Hr & i & t & v & stm & st' & Hcase)]; [by left|].
  right. split; [done|].
  destruct Hcase as (? & ? & Hca & Hm & Hst' & Hsuf).
  destruct (Forall2_lookup_r _ _ _ _ _ Hsweep Hm) as (st & Hst & Hs).
  exists i, t, v, st, st'. repeat split; try done.
  etrans; [exact Hsuf|]. apply Hs.
Qed.

End step_effect.

(** ** Invariants of executions *)

Section invariants.
Context {Ty Val : Type} `{EqDecision Ty} {Sort : StdSort}.
Implicit Types (s : SampleReader.t Ty Val) (st : Stream.t Ty Val).
Implicit Types (sts : list (Stream.t Ty Val)) (o : op Ty Val).

Lemma bounded_by_shrinks latest st st' :
  shrinks st st' → bounded_by latest st → bounded_by latest st'.
Proof.
  intros (_ & _ & _ & _ & Hsuf). unfold bounded_by.
  rewrite !Forall_forall. intros Hb x Hx. apply Hb.
  by eapply elem_of_suffix.
Qed.

Lemma bounded_by_mono latest latest' st :
  latest <= latest' → bounded_by latest st → bounded_by latest' st.
Proof.
  intros Hle Hb. eapply Forall_impl; [exact Hb|]. simpl. intros; lia.
Qed.

Lemma within_capacity_shrinks st st' :
  shrinks st st' → within_capacity st → within_capacity st'.
Proof.
  intros (_ & Hbs & _ & _ & Hsuf) Hc. unfold within_capacity in *.
  rewrite Hbs. intros Hpos. apply suffix_length in Hsuf.
  specialize (Hc Hpos). lia.
Qed.

Lemma Forall_shrinks (P : Stream.t Ty Val → Prop) sts sts' :
  (∀ st st', shrinks st st' → P st → P st') →
  Forall2 shrinks sts sts' → Forall P sts → Forall P sts'.
Proof.
  intros HP. induction 1; inversion 1; subst; constructor; eauto.
Qed.

Lemma stream_push_bounded latest st ts data :
  ts <= latest → bounded_by latest st →
  bounded_by latest (Stream.push st ts data).
Proof.
  intros Hts Hb. unfold Stream.push. destruct (ts <? Stream.lastTime st);
    [done|].
  unfold bounded_by in *. simpl. apply Forall_app_2.
  - rewrite Forall_forall in *. intros x Hx. apply Hb.
    eapply elem_of_suffix; [exact Hx | apply make_space_suffix].
  - by apply Forall_singleton.
Qed.

Lemma stream_push_within_capacity st ts data :
  within_capacity st → within_capacity (Stream.push st ts data).
Proof.
  intros Hc. unfold Stream.push. destruct (ts <? Stream.lastTime st);
    [done|].
  unfold within_capacity. simpl. intros Hpos.
  rewrite length_app. simpl.
  pose proof (make_space_length (Stream.bufferSize st) (Stream.buffer st) Hpos).
  lia.
Qed.

Lemma inv_new tm : inv (SampleReader.new (Ty := Ty) (Val := Val) tm).
Proof. unfold inv. simpl. split_and!; by try constructor. Qed.

Lemma inv_registerStream s T bs p : inv s → inv (registerStream s T bs p).1.
Proof.
  intros (H1 & H2 & H3 & H4 & H5). unfold inv. simpl.
  split_and!; try done.
  - apply Forall_app_2; [done|]. apply Forall_singleton. constructor.
  - apply Forall_app_2; [done|]. apply Forall_singleton.
    intros _. simpl. lia.
Qed.

Lemma inv_push s idx T ts data s' :
  push s idx T ts data = Return s' → inv s → inv s'.
Proof.
  intros Hp Hinv.
  destruct (Z.lt_ge_cases idx 0) as [Hi|Hi].
  { by rewrite push_negative_index in Hp. }
  destruct (Z.lt_ge_cases (ts + timeout s) (latest_ts s)) as [Hs|Hs].
  { rewrite push_stale in Hp by done. congruence. }
  rewrite push_fresh in Hp by done. simpl in Hp.
  destruct (streams s !! Z.to_nat idx) as [st|] eqn:Hst; [|done].
  case_decide; [|done]. injection Hp as <-.
  destruct Hinv as (H1 & H2 & H3 & H4 & H5).
  unfold inv. simpl. split_and!; try done.
  - lia.
  - apply Forall_insert.
    + eapply Forall_impl; [exact H2|].
      intros x. apply bounded_by_mono. lia.
    + apply stream_push_bounded; [lia|].
      eapply bounded_by_mono; [|by eapply Forall_lookup_1]. lia.
  - apply Forall_insert; [done|].
    apply stream_push_within_capacity. by eapply Forall_lookup_1.
Qed.

Lemma inv_step s : inv s → inv (step s).2.
Proof.
  intros (H1 & H2 & H3 & H4 & H5).
  destruct (step_post_step s) as (Ht & Hl & Hsh & Hcase).
  assert (Forall (bounded_by (latest_ts s)) (streams (step s).2)) as H2'.
  { eapply Forall_shrinks; [|exact Hsh|exact H2].
    apply bounded_by_shrinks. }
  assert (Forall within_capacity (streams (step s).2)) as H5'.
  { eapply Forall_shrinks; [|exact Hsh|exact H5].
    apply within_capacity_shrinks. }
  destruct Hcase as [(_ & Hca & Hcu)|(_ & i & t & v & st & st' & Hcase)].
  - unfold inv. rewrite Hl, Hca, Hcu. done.
  - destruct Hcase as (Hle & Hcu & Hca & Hst & _ & Hsuf).
    unfold inv. rewrite Hl, Hca, Hcu.
    split_and!; try done.
    + eapply Forall_lookup_1 in H2; [|exact Hst].
      unfold bounded_by in H2. rewrite Forall_forall in H2.
      apply (H2 (t, v)). eapply elem_of_suffix; [|exact Hsuf].
      apply list_elem_of_here.
    + apply Forall_app_2.
      * eapply Forall_impl; [exact H3|]. simpl. intros; lia.
      * apply Forall_singleton. unfold call_ts. simpl. lia.
    + rewrite fmap_app. apply StronglySorted_app_2; [|done|].
      * intros x1 x2 Hx1 Hx2. apply list_elem_of_fmap in Hx1 as (c & -> & Hc).
        apply list_elem_of_singleton in Hx2 as ->.
        rewrite Forall_forall in H3. specialize (H3 c Hc).
        unfold call_ts at 2. simpl. lia.
      * repeat constructor.
Qed.

Lemma inv_exec o s s' : exec o s = Some s' → inv s → inv s'.
Proof.
  destruct o as [T bs p|tm|idx T ts d|]; simpl.
  - intros [= <-]. apply inv_registerStream.
  - intros [= <-]. done.
  - destruct (push s idx T ts d) as [s1|w s1| |] eqn:Hp; try done.
    + intros [= <-]. by eapply inv_push.
    + intros [= <-]. unfold push in Hp.
      repeat (case_match; try done). by injection Hp as _ <-.
  - intros [= <-]. apply inv_step.
Qed.

Lemma inv_run_from ops s : inv s → inv (run ops s).
Proof.
  revert s. induction ops as [|o ops IH]; intros s Hs; simpl; [done|].
  destruct (exec o s) eqn:Ho; [|done].
  apply IH. by eapply inv_exec.
Qed.

Lemma inv_run tm (ops : list (op Ty Val)) :
  inv (run ops (SampleReader.new tm)).
Proof. apply inv_run_from, inv_new. Qed.

End invariants.

(** ** Monotonicity of the two clocks *)

Section clocks.
Context {Ty Val : Type} `{EqDecision Ty} {Sort : StdSort}.
Implicit Types (s : SampleReader.t Ty Val) (o : op Ty Val).

Lemma not_behind_refl s : not_behind s s.
Proof. split; lia. Qed.

Lemma not_behind_trans s1 s2 s3 :
  not_behind s1 s2 → not_behind s2 s3 → not_behind s1 s3.
Proof. intros [??] [??]. split; lia. Qed.

Lemma exec_not_behind o s s' : exec o s = Some s' → not_behind s s'.
Proof.
  destruct o as [T bs p|tm|idx T ts d|]; simpl.
  - intros [= <-]. split; simpl; lia.
  - intros [= <-]. split; simpl; lia.
  - destruct (Z.lt_ge_cases idx 0) as [Hi|Hi].
    { rewrite push_negative_index by done. intros [= <-]. split; lia. }
    destruct (Z.lt_ge_cases (ts + timeout s) (latest_ts s)) as [Hs|Hs].
    { rewrite push_stale by done. intros [= <-]. split; lia. }
    rewrite push_fresh by done. simpl.
    destruct (streams s !! Z.to_nat idx) as [st|]; [|done].
    case_decide; [|done]. intros [= <-]. split; simpl; lia.
  - intros [= <-].
    destruct (step_post_step s) as (_ & Hl & _ & Hcase).
    split; [lia|].
    destruct Hcase as [(_ & _ & ->)|(_ & i & t & v & st & st' & Hc)]; [lia|].
    destruct Hc as (? & -> & _). done.
Qed.

Lemma run_not_behind ops s : not_behind s (run ops s).
Proof.
  revert s. induction ops as [|o ops IH]; intros s; simpl.
  - apply not_behind_refl.
  - destruct (exec o s) as [s'|] eqn:Ho; [|apply not_behind_refl].
    eapply not_behind_trans; [by eapply exec_not_behind | apply IH].
Qed.

Lemma run_app_not_behind ops ops' s :
  not_behind (run ops s) (run (ops ++ ops') s).
Proof.
  revert s. induction ops as [|o ops IH]; intros s; simpl.
  - apply run_not_behind.
  - destruct (exec o s) as [s'|]; [apply IH | apply not_behind_refl].
Qed.

End clocks.

(** ** The claims on executions *)

Section execution_claims.
Context {Ty Val : Type} `{EqDecision Ty}.
Implicit Types (s : SampleReader.t Ty Val) (st : Stream.t Ty Val).

(** C1.  Whatever the operations performed on an aggregator, and whatever
    conforming [std::sort] it runs on, the time stamps handed to the
    callbacks, taken over all streams in the order of the calls, never
    decrease. *)
Theorem delivered_timestamps_nondecreasing
    (Sort : StdSort) (tm : Time) (ops : list (op Ty Val)) :
  StronglySorted Z.le (call_ts <$> calls (run ops (SampleReader.new tm))).
Proof. by destruct (inv_run tm ops) as (_ & _ & _ & Hsorted & _). Qed.

(** C6.  After any operations [ops], [current_ts <= latest_ts]; neither
    clock moves back when the execution goes on with [ops']; and the
    latency is not negative. *)
Theorem clocks_ordered_and_monotone
    (Sort : StdSort) (tm : Time) (ops ops' : list (op Ty Val)) :
  let s := run ops (SampleReader.new tm) in
  let s' := run (ops ++ ops') (SampleReader.new tm) in
  current_ts s <= latest_ts s ∧
  latest_ts s <= latest_ts s' ∧
  current_ts s <= current_ts s' ∧
  0 <= getLatency s.
Proof.
  simpl.
  destruct (inv_run tm ops) as (Hle & _).
  destruct (run_app_not_behind ops ops' (SampleReader.new tm)) as [Hl Hc].
  unfold getLatency. repeat split; try done. lia.
Qed.

(** C7.  On a stream with [bufferSize > 0]: a push that stores its sample
    into a full queue drops the oldest sample and appends the new one at the
    back (the only push that stores nothing is that of a sample older than
    [lastTime], which leaves the stream as it is); a push that stores its
    sample leaves at most [bufferSize] samples; every push keeps a queue
    that was within its capacity within it; and in every execution all
    queues are within their capacity. *)
Theorem stream_push_drops_oldest st (ts : Time) (data : Val) :
  (0 < Stream.bufferSize st)%nat →
  (length (Stream.buffer st) = Stream.bufferSize st →
   Stream.lastTime st <= ts →
   ∃ oldest rest,
     Stream.buffer st = oldest :: rest ∧
     Stream.buffer (Stream.push st ts data) = rest ++ [(ts, data)]) ∧
  (ts < Stream.lastTime st → Stream.push st ts data = st) ∧
  (Stream.lastTime st <= ts →
   (length (Stream.buffer (Stream.push st ts data))
    ≤ Stream.bufferSize st)%nat) ∧
  ((length (Stream.buffer st) ≤ Stream.bufferSize st)%nat →
   (length (Stream.buffer (Stream.push st ts data))
    ≤ Stream.bufferSize st)%nat) ∧
  (∀ (Sort : StdSort) tm (ops : list (op Ty Val)),
     Forall within_capacity (streams (run ops (SampleReader.new tm)))).
Proof.
  intros Hpos. split_and!.
  - intros Hfull Hts. unfold Stream.push.
    rewrite (proj2 (Z.ltb_ge _ _) Hts). simpl.
    destruct (Stream.buffer st) as [|oldest rest] eqn:Hbuf.
    { simpl in Hfull. lia. }
    exists oldest, rest. split; [done|].
    by rewrite make_space_full.
  - intros Hts. unfold Stream.push.
    by rewrite (proj2 (Z.ltb_lt _ _) Hts).
  - intros Hts. unfold Stream.push.
    rewrite (proj2 (Z.ltb_ge _ _) Hts). simpl.
    rewrite length_app. simpl.
    pose proof (make_space_length _ (Stream.buffer st) Hpos). lia.
  - intros Hlen.
    assert (within_capacity st) as Hc by (by intros _).
    apply (stream_push_within_capacity st ts data) in Hc.
    unfold within_capacity, Stream.push in *.
    destruct (ts <? Stream.lastTime st); simpl in *; auto.
  - intros Sort tm ops.
    by destruct (inv_run tm ops) as (_ & _ & _ & _ & Hcap).
Qed.

End execution_claims.

(** ** Where delivered samples come from *)

Section provenance.
Context {Ty Val : Type} `{EqDecision Ty} {Sort : StdSort}.
Implicit Types (s : SampleReader.t Ty Val) (st : Stream.t Ty Val).
Implicit Types (o : op Ty Val) (i : nat).

Lemma suffix_sublist {A} (l k : list A) : l `suffix_of` k → l `sublist_of` k.
Proof. intros [l' ->]. by apply sublist_inserts_l. Qed.

Lemma queue_shrinks i s s' :
  Forall2 shrinks (streams s) (streams s') → queue i s' `suffix_of` queue i s.
Proof.
  intros Hsh. unfold queue.
  destruct (streams s' !! i) as [st'|] eqn:Hi; [|apply suffix_nil].
  destruct (Forall2_lookup_r _ _ _ _ _ Hsh Hi) as (st & -> & Hs).
  apply Hs.
Qed.

Lemma delivered_snoc i s s' j t v :
  calls s' = calls s ++ [(j, t, v)] →
  delivered i s' = delivered i s ++ if decide (j = i) then [(t, v)] else [].
Proof.
  intros Hc. unfold delivered. rewrite Hc, filter_app, fmap_app.
  f_equal. rewrite filter_cons, filter_nil. unfold call_stream. simpl.
  by destruct (decide (j = i)).
Qed.

Lemma step_held i s : held i (step s).2 `sublist_of` held i s.
Proof.
  destruct (step_post_step s) as (_ & _ & Hsh & Hcase).
  unfold held.
  destruct Hcase as [(_ & Hca & _)|(_ & j & t & v & st & st' & Hc)].
  - unfold delivered. rewrite Hca.
    apply sublist_app; [done|]. by apply suffix_sublist, queue_shrinks.
  - destruct Hc as (_ & _ & Hca & Hst & Hst' & Hsuf).
    rewrite (delivered_snoc i _ _ _ _ _ Hca).
    destruct (decide (j = i)) as [->|Hne].
    + rewrite <- app_assoc. apply sublist_app; [done|].
      unfold queue. rewrite Hst, Hst'. by apply suffix_sublist.
    + rewrite app_nil_r.
      apply sublist_app; [done|]. by apply suffix_sublist, queue_shrinks.
Qed.

Lemma stream_push_buffer st ts data :
  Stream.buffer (Stream.push st ts data)
    `sublist_of` Stream.buffer st ++ [(ts, data)].
Proof.
  unfold Stream.push. destruct (ts <? Stream.lastTime st); simpl.
  - by apply sublist_inserts_r.
  - apply sublist_app; [|done]. apply suffix_sublist, make_space_suffix.
Qed.

Lemma exec_held i o s s' :
  exec o s = Some s' → held i s' `sublist_of` held i s ++ fresh_push i o s.
Proof.
  destruct o as [T bs p|tm|idx T ts d|]; simpl.
  - intros [= <-]. rewrite app_nil_r. unfold held, delivered, queue. simpl.
    apply sublist_app; [done|].
    destruct (streams s !! i) as [st|] eqn:Hi.
    + by rewrite (lookup_app_l_Some _ _ _ _ Hi).
    + apply lookup_ge_None in Hi.
      rewrite lookup_app_r by done.
      destruct (i - length (streams s))%nat; simpl; done.
  - intros [= <-]. by rewrite app_nil_r.
  - destruct (Z.lt_ge_cases idx 0) as [Hi|Hi].
    { rewrite push_negative_index by done. intros [= <-].
      by apply sublist_inserts_r. }
    destruct (Z.lt_ge_cases (ts + timeout s) (latest_ts s)) as [Hs|Hs].
    { rewrite push_stale by done. intros [= <-].
      by apply sublist_inserts_r. }
    rewrite push_fresh by done. simpl.
    destruct (streams s !! Z.to_nat idx) as [st|] eqn:Hst; [|done].
    case_decide; [|done]. intros [= <-].
    unfold held, delivered, queue. simpl.
    rewrite <- app_assoc. apply sublist_app; [done|].
    unfold stale. rewrite (proj2 (Z.ltb_ge _ _) Hs).
    destruct (decide (idx = Z.of_nat i)) as [->|Hne].
    + rewrite Nat2Z.id in *.
      rewrite list_lookup_insert_eq by (by eapply lookup_lt_Some).
      rewrite Hst. apply stream_push_buffer.
    + rewrite list_lookup_insert_ne by lia. by rewrite app_nil_r.
  - intros [= <-]. rewrite app_nil_r. apply step_held.
Qed.

Lemma run_held i ops s acc :
  held i s `sublist_of` acc →
  held i (run ops s) `sublist_of` acc ++ fresh_pushes i ops s.
Proof.
  revert s acc. induction ops as [|o ops IH]; intros s acc Hacc; simpl.
  - by rewrite app_nil_r.
  - destruct (exec o s) as [s'|] eqn:Ho.
    + rewrite app_assoc. apply IH.
      etrans; [by eapply exec_held|]. by apply sublist_app.
    + by rewrite app_nil_r.
Qed.

Lemma delivered_fresh i tm (ops : list (op Ty Val)) :
  delivered i (run ops (SampleReader.new tm))
    `sublist_of` fresh_pushes i ops (SampleReader.new tm).
Proof.
  etrans; [|apply (run_held i ops (SampleReader.new tm) [])].
  - unfold held. by apply sublist_inserts_r.
  - done.
Qed.

End provenance.

(** ** The claims on push *)

Section push_claims.
Context {Ty Val : Type} `{EqDecision Ty}.
Implicit Types (s : SampleReader.t Ty Val) (st : Stream.t Ty Val).
Implicit Types (idx : Z) (T : Ty) (ts : Time) (data : Val).

(** C2, as amended.  A push with a non-negative index and
    [ts + timeout < latest_ts] returns normally and leaves the aggregator as
    it was; and in every execution the samples delivered by a stream form a
    subsequence of the samples pushed to it that were not stale when pushed,
    so that a sample stale at its push is never delivered. *)
Theorem stale_push_dropped :
  (∀ s idx T ts data,
     0 <= idx → ts + timeout s < latest_ts s →
     push s idx T ts data = Return s) ∧
  (∀ (Sort : StdSort) (tm : Time) (ops : list (op Ty Val)) (i : nat),
     delivered i (run ops (SampleReader.new tm))
       `sublist_of` fresh_pushes i ops (SampleReader.new tm)).
Proof.
  split.
  - intros. by apply push_stale.
  - intros. apply delivered_fresh.
Qed.

(** C4.  On an aggregator without streams, [push(0, ...)] of a sample that
    is not stale indexes the empty vector: nothing is thrown. *)
Theorem push_index_past_end_unchecked T data :
  push (SampleReader.new 1) 0 T 0 data = Undefined.
Proof. reflexivity. Qed.

(** C5, as amended.  On a valid index whose stream is not typed [T]: a push
    that is not stale fails the assertion, with the streams and the record
    of deliveries untouched; a stale push returns normally, the aggregator
    unchanged.  In neither case is the sample stored. *)
Theorem push_type_mismatch s idx T ts data st :
  0 <= idx → streams s !! Z.to_nat idx = Some st → Stream.elem st ≠ T →
  (latest_ts s <= ts + timeout s →
   ∃ s', push s idx T ts data = AssertFail s' ∧
         streams s' = streams s ∧ calls s' = calls s) ∧
  (ts + timeout s < latest_ts s → push s idx T ts data = Return s).
Proof.
  intros Hi Hst Hne. split.
  - intros Hs. rewrite push_fresh by done. simpl. rewrite Hst.
    case_decide; [done|]. eauto.
  - intros Hs. by apply push_stale.
Qed.

(** C9.  The staleness test comes before the stream vector is indexed: a
    stale push with an index at or past the end of the vector returns
    normally and changes nothing. *)
Theorem push_stale_before_index s idx T ts data :
  0 <= idx → Z.of_nat (length (streams s)) <= idx →
  ts + timeout s < latest_ts s →
  push s idx T ts data = Return s.
Proof. intros Hi _ Hs. by apply push_stale. Qed.

(** C10.  [latest_ts] is raised before the element type is checked: a push
    on a valid index, not stale, newer than [latest_ts], to a stream not
    typed [T], fails the assertion with [latest_ts] already set to [ts] and
    no sample stored. *)
Theorem push_type_mismatch_advances_latest_ts s idx T ts data st :
  0 <= idx → streams s !! Z.to_nat idx = Some st → Stream.elem st ≠ T →
  latest_ts s <= ts + timeout s → latest_ts s < ts →
  push s idx T ts data = AssertFail (set_latest_ts ts s) ∧
  latest_ts (set_latest_ts ts s) = ts ∧
  streams (set_latest_ts ts s) = streams s.
Proof.
  intros Hi Hst Hne Hs Hts. split; [|done].
  rewrite push_fresh by done. simpl. rewrite Hst.
  case_decide; [done|]. by rewrite Z.max_r by lia.
Qed.

End push_claims.

(** C2: the claim as stated fails for a negative index, where the index
    test comes first and the stale push throws. *)
Lemma stale_push_negative_index_throws :
  7 + timeout Demo.one_stream_at_10 < latest_ts Demo.one_stream_at_10 ∧
  push Demo.one_stream_at_10 (-1) Demo.TInt 7 0 =
    Throw "invalid stream index." Demo.one_stream_at_10.
Proof. split; [by vm_compute | reflexivity]. Qed.

Lemma stale_push_dropped_witness :
  push Demo.one_stream_at_10 0 Demo.TInt 7 0 = Return Demo.one_stream_at_10.
Proof.
  apply (proj1 stale_push_dropped); [lia | by vm_compute].
Defined.

(** C5: the claim as stated fails for a stale sample, which is dropped
    before the element type is looked at: a [double] pushed to the [int]
    stream returns normally. *)
Lemma stale_push_wrong_type_returns :
  streams Demo.one_stream_at_10 !! 0%nat =
    Some (Stream.mk Demo.TInt [(10, 5)] 10 0 10 false) ∧
  push Demo.one_stream_at_10 0 Demo.TDouble 7 0 =
    Return Demo.one_stream_at_10.
Proof. split; reflexivity. Qed.

Lemma push_type_mismatch_witness :
  (latest_ts Demo.one_stream_at_10 <= 9 + timeout Demo.one_stream_at_10 →
   ∃ s', push Demo.one_stream_at_10 0 Demo.TDouble 9 0 = AssertFail s' ∧
         streams s' = streams Demo.one_stream_at_10 ∧
         calls s' = calls Demo.one_stream_at_10) ∧
  (9 + timeout Demo.one_stream_at_10 < latest_ts Demo.one_stream_at_10 →
   push Demo.one_stream_at_10 0 Demo.TDouble 9 0 =
     Return Demo.one_stream_at_10).
Proof.
  apply (push_type_mismatch Demo.one_stream_at_10 0 Demo.TDouble 9 0
           (Stream.mk Demo.TInt [(10, 5)] 10 0 10 false));
    [lia | reflexivity | discriminate].
Defined.

Lemma push_stale_before_index_witness :
  push Demo.one_stream_at_10 1 Demo.TInt 7 0 = Return Demo.one_stream_at_10.
Proof.
  apply push_stale_before_index; [lia | by vm_compute | by vm_compute].
Defined.

Lemma push_type_mismatch_advances_latest_ts_witness :
  push Demo.one_stream_at_10 0 Demo.TDouble 11 0 =
    AssertFail (set_latest_ts 11 Demo.one_stream_at_10) ∧
  latest_ts (set_latest_ts 11 Demo.one_stream_at_10) = 11 ∧
  streams (set_latest_ts 11 Demo.one_stream_at_10) =
    streams Demo.one_stream_at_10.
Proof.
  apply (push_type_mismatch_advances_latest_ts Demo.one_stream_at_10 0
           Demo.TDouble 11 0 (Stream.mk Demo.TInt [(10, 5)] 10 0 10 false));
    [lia | reflexivity | discriminate | by vm_compute | by vm_compute].
Defined.

Lemma stream_push_drops_oldest_witness :
  Stream.buffer (Stream.push Demo.full_stream 3 30) = [(2, 20); (3, 30)].
Proof.
  destruct (stream_push_drops_oldest Demo.full_stream 3 30) as (Hd & _);
    [simpl; lia|].
  destruct Hd as (oldest & rest & Hb & ->); [reflexivity | simpl; lia |].
  by injection Hb as <- <-.
Defined.

(** ** One stream, pushed in order and then drained *)

Section round_trip.
Context {Ty Val : Type} `{EqDecision Ty} {Sort : StdSort}.
Implicit Types (T : Ty) (buf l : list (Time * Val)) (cs : list (call Val)).

Lemma Forall_fst_le (z : Time) l :
  Forall (Z.le z) l.*1 → Forall (λ x, z <= x.1) l.
Proof. induction l; inversion 1; constructor; auto. Qed.

Lemma throw_out_late_head cur T t (v : Val) tl n p lt od :
  cur <= t →
  Stream.throw_out_late cur (Stream.mk T ((t, v) :: tl) n p lt od) =
    Stream.mk T ((t, v) :: tl) n p lt od.
Proof.
  intros Ht. unfold Stream.throw_out_late. cbn -[Z.ltb].
  by rewrite (proj2 (Z.ltb_ge _ _) Ht).
Qed.

Lemma sort_singleton (it : StreamIndex.t) : sort [it] = [it].
Proof. apply Permutation_singleton_r, sort_perm. Qed.

Lemma push_single T n p tm buf latest cur cs ts data :
  0 <= tm → latest <= ts → (length buf < n)%nat →
  push (single T n p tm buf latest cur cs) 0 T ts data =
    Return (single T n p tm (buf ++ [(ts, data)]) ts cur cs).
Proof.
  intros Htm Hts Hlen.
  rewrite push_fresh by (simpl; lia). simpl.
  rewrite decide_True by done.
  unfold Stream.push. simpl. rewrite (proj2 (Z.ltb_ge _ _) Hts).
  rewrite make_space_room by lia.
  unfold single, set_streams, set_latest_ts. simpl.
  by rewrite Z.max_r by lia.
Qed.

Lemma run_pushes_single T n p tm l : ∀ buf latest cur cs,
  0 <= tm → StronglySorted Z.le l.*1 → Forall (λ x, latest <= x.1) l →
  (length buf + length l ≤ n)%nat →
  run (pushes 0 T l) (single T n p tm buf latest cur cs) =
    single T n p tm (buf ++ l) (last_ts latest l) cur cs.
Proof.
  induction l as [|[ts d] l IH]; intros buf latest cur cs Htm Hs Hl Hn.
  { simpl. by rewrite app_nil_r. }
  simpl in *. apply StronglySorted_cons in Hs as [Hhd Hs].
  apply Forall_cons in Hl as [Hts _]. simpl in Hts.
  rewrite (push_single T n p tm buf latest cur cs ts d Htm Hts) by lia.
  unfold pushes in IH. rewrite IH; try done.
  - by rewrite <- app_assoc.
  - by apply Forall_fst_le.
  - rewrite length_app. simpl. lia.
Qed.

Lemma step_single_data T n p tm t v tl latest cur cs :
  cur <= t →
  step (single T n p tm ((t, v) :: tl) latest cur cs) =
    (true, single T n p tm tl latest t (cs ++ [(0%nat, t, v)])).
Proof.
  intros Ht. unfold step, single.
  cbn [streams current_ts collect].
  rewrite throw_out_late_head by done.
  cbn. rewrite sort_singleton. reflexivity.
Qed.

Lemma step_single_empty T n p tm latest cur cs :
  step (single T n p tm [] latest cur cs) =
    (false, single T n p tm [] latest cur cs).
Proof.
  unfold step, single. cbn [streams current_ts collect].
  unfold Stream.throw_out_late, Stream.nextTimeStamp, Stream.hasData.
  cbn -[Z.add isNull].
  destruct (negb (isNull (latest + p))); reflexivity.
Qed.

Lemma run_steps_single T n p tm latest k : ∀ buf cur cs,
  StronglySorted Z.le buf.*1 → Forall (λ x, cur <= x.1) buf →
  run (repeat OpStep k) (single T n p tm buf latest cur cs) =
    single T n p tm (drop k buf) latest (last_ts cur (take k buf))
      (cs ++ (by_stream_0 <$> take k buf)).
Proof.
  induction k as [|k IH]; intros buf cur cs Hs Hc; simpl.
  { by rewrite drop_0, app_nil_r. }
  destruct buf as [|[t v] tl]; simpl.
  - rewrite step_single_empty. simpl. rewrite IH by done.
    by rewrite drop_nil, take_nil.
  - apply Forall_cons in Hc as [Ht _]. simpl in *.
    apply StronglySorted_cons in Hs as [Hhd Hs].
    rewrite step_single_data by done. simpl.
    rewrite IH; [by rewrite <- app_assoc | done |].
    by apply Forall_fst_le.
Qed.

(** C8, as amended.  On a fresh aggregator with a timeout that is not
    negative and one stream of capacity [bufferSize >= n], after [n] samples
    with time stamps [0 <= t1 <= ... <= tn] have been pushed in order, [k]
    calls of [step] have delivered exactly the first [k] of them (all [n]
    once [k >= n]), in order, with their time stamps and values; and the
    next call returns true exactly when a sample is left. *)
Theorem single_stream_round_trip
    T (bufferSize : Z) (period tm : Time) (samples : list (Time * Val))
    (k : nat) :
  0 <= tm →
  Z.of_nat (length samples) <= bufferSize < 2 ^ 31 →
  StronglySorted Z.le samples.*1 →
  Forall (λ x, 0 <= x.1) samples →
  let s0 := (registerStream (SampleReader.new tm) T bufferSize period).1 in
  let s1 := run (pushes 0 T samples) s0 in
  let s2 := run (repeat OpStep k) s1 in
  calls s2 = by_stream_0 <$> take k samples ∧
  (step s2).1 = bool_decide (k < length samples)%nat.
Proof.
  intros Htm [Hn Hbs] Hs Hpos. cbv zeta.
  change (registerStream (SampleReader.new tm) T bufferSize period).1
    with (single (Val := Val) T (size_t_of_int bufferSize) period tm []
            0 0 []).
  assert (size_t_of_int bufferSize = Z.to_nat bufferSize) as Hsz.
  { unfold size_t_of_int. rewrite Z.mod_small; [done|]. split; [lia|].
    eapply Z.lt_trans; [exact Hbs|]. done. }
  rewrite run_pushes_single; [|done|done|done|simpl; lia].
  rewrite run_steps_single; [|done|done]. rewrite !app_nil_l.
  split; [done|].
  destruct (drop k samples) as [|[t v] tl] eqn:Hd.
  - rewrite step_single_empty. simpl. symmetry.
    apply bool_decide_eq_false. apply drop_nil_inv in Hd. lia.
  - assert (k < length samples)%nat as Hk.
    { destruct (decide (k < length samples)%nat); [done|].
      rewrite drop_ge in Hd by lia. done. }
    assert (last_ts 0 (take k samples) <= t) as Hle.
    { clear -Hs Hpos Hd. revert samples Hs Hpos Hd.
      generalize 0 at 1 2. induction k as [|k IH]; intros z l Hs Hpos Hd.
      - simpl in *. rewrite drop_0 in Hd. subst l.
        by apply Forall_cons in Hpos as [? _].
      - destruct l as [|[t' v'] l]; [done|]. simpl in *.
        apply StronglySorted_cons in Hs as [Hhd Hs].
        apply Forall_fst_le in Hhd. by apply (IH t' l). }
    rewrite step_single_data by done. simpl. symmetry.
    by apply bool_decide_eq_true.
Qed.

End round_trip.

(** C8: the claim as stated fails for a sample stamped before zero: the
    stream starts with a null [lastTime], and its [push] drops what is
    older. *)
Lemma negative_timestamp_not_delivered :
  let s1 := run (Sort := Sorts.insertion_sort)
              [OpRegister Demo.TInt 10 0; OpPush 0 Demo.TInt (-1) 7]
              (SampleReader.new 1) in
  -1 + timeout (SampleReader.new (Ty := Demo.payload_type) (Val := Z) 1)
    >= latest_ts (SampleReader.new (Ty := Demo.payload_type) (Val := Z) 1) ∧
  queue 0 s1 = [] ∧
  calls (run (Sort := Sorts.insertion_sort) (repeat OpStep 3) s1) = [].
Proof. simpl. split; [by vm_compute | by split]. Qed.

Lemma single_stream_round_trip_witness :
  let s0 := (registerStream (SampleReader.new 2) Demo.TInt 10 0).1 in
  let s1 := run (Sort := Sorts.insertion_sort)
              (pushes 0 Demo.TInt [(1, 10); (1, 11); (3, 12)]) s0 in
  let s2 := run (Sort := Sorts.insertion_sort) (repeat OpStep 2) s1 in
  calls s2 = [(0%nat, 1, 10); (0%nat, 1, 11)] ∧
  (step (Sort := Sorts.insertion_sort) s2).1 = true.
Proof.
  apply (single_stream_round_trip (Sort := Sorts.insertion_sort)
           Demo.TInt 10 0 2 [(1, 10); (1, 11); (3, 12)] 2).
  - lia.
  - by vm_compute.
  - repeat constructor; by vm_compute.
  - repeat constructor; by vm_compute.
Defined.

(** ** The order in which step scans its candidates *)

Section scan_order.
Context {Ty Val : Type} `{EqDecision Ty}.
Implicit Types (s : SampleReader.t Ty Val) (st : Stream.t Ty Val).
Implicit Types (it a b : StreamIndex.t) (l : list StreamIndex.t).

Lemma StronglySorted_filter {A} (R : relation A) (P : A → Prop)
    `{∀ x, Decision (P x)} (l : list A) :
  StronglySorted R l → StronglySorted R (filter P l).
Proof.
  induction 1 as [|x l Hs IH Hx]; [constructor|].
  rewrite filter_cons. case_decide; [|done].
  constructor; [done|].
  rewrite Forall_forall in *. intros y [_ Hy]%list_elem_of_filter. auto.
Qed.

Lemma collect_registration_order cur i (sts : list (Stream.t Ty Val)) :
  StronglySorted registered_before (collect cur i sts).1.2 ∧
  Forall (λ a, (i ≤ StreamIndex.stream a)%nat) (collect cur i sts).1.2.
Proof.
  revert i. induction sts as [|st sts IH]; intros i; simpl.
  { split; constructor. }
  destruct (IH (S i)) as [Hs Hf].
  destruct (collect cur (S i) sts) as [[r its] b]. simpl in *.
  assert (Forall (λ a, (i ≤ StreamIndex.stream a)%nat) its) as Hf'.
  { eapply Forall_impl; [exact Hf|]. simpl. intros; lia. }
  destruct (_ || _); simpl; [|done].
  split.
  - constructor; [done|].
    eapply Forall_impl; [exact Hf|]. unfold registered_before. simpl.
    intros; lia.
  - constructor; [simpl; lia | done].
Qed.

Lemma candidates_registration_order s :
  StronglySorted registered_before (candidates s).
Proof. apply collect_registration_order. Qed.

(** When the second loop delivers, it delivers the first candidate with
    data, every candidate before it having none. *)
Lemma scan_emits l : ∀ s,
  (∀ it, it ∈ l → StreamIndex.hasData it = true →
     ∃ st v tl, streams s !! StreamIndex.stream it = Some st ∧
        Stream.buffer st = (StreamIndex.time it, v) :: tl) →
  (scan l s).1 = true →
  ∃ l1 it l2 v,
    l = l1 ++ it :: l2 ∧
    Forall (λ a, StreamIndex.hasData a = false) l1 ∧
    StreamIndex.hasData it = true ∧
    calls (scan l s).2 =
      calls s ++ [(StreamIndex.stream it, StreamIndex.time it, v)].
Proof.
  induction l as [|a l IH]; intros s Hl; simpl; [done|].
  destruct (StreamIndex.hasData a) eqn:Hd.
  - intros _.
    destruct (Hl a) as (st & v & tl & Hst & Hbuf);
      [apply list_elem_of_here | done |].
    exists [], a, l, v. split_and!; [done | constructor | done |].
    unfold pop_stream, Stream.pop. rewrite Hst, Hbuf. done.
  - destruct (latest_ts s <? StreamIndex.time a + timeout s); [done|].
    intros Hr.
    destruct (IH (mark_overdue (StreamIndex.stream a) s))
      as (l1 & it & l2 & v & -> & Hl1 & Hit & Hcalls); [|done|].
    { intros it' Hin Hd'.
      destruct (Hl it') as (st & v & tl & Hst & Hbuf);
        [by apply list_elem_of_further | done |].
      destruct (mark_overdue_lookup (StreamIndex.stream a) _ _ _ Hst)
        as (st' & Hst' & Hb).
      exists st', v, tl. by rewrite Hb. }
    exists (a :: l1), it, l2, v. split_and!; [done | by constructor | done |].
    rewrite Hcalls.
    by destruct (mark_overdue_frame (StreamIndex.stream a) s)
      as (_ & _ & _ & -> & _).
Qed.

Lemma step_emits {Sort : StdSort} s :
  (step s).1 = true →
  ∃ l1 it l2 v,
    sort (candidates s) = l1 ++ it :: l2 ∧
    Forall (λ a, StreamIndex.hasData a = false) l1 ∧
    StreamIndex.hasData it = true ∧
    calls (step s).2 =
      calls s ++ [(StreamIndex.stream it, StreamIndex.time it, v)].
Proof.
  unfold step, candidates.
  destruct (streams s) as [|st0 sts0] eqn:Hs; [done|].
  rewrite <- Hs. clear st0 sts0 Hs.
  pose proof (collect_streams (current_ts s) 0 (streams s)) as Hsts.
  pose proof (collect_elem_of (current_ts s) (streams s)) as Hin.
  destruct (collect (current_ts s) 0 (streams s)) as [[sts items] lhd].
  simpl in Hsts, Hin. subst sts. simpl.
  destruct items as [|it0 items0] eqn:Hitems; [done|].
  rewrite <- Hitems in *. clear it0 items0 Hitems.
  destruct lhd; simpl; [|done].
  intros Hr. apply scan_emits in Hr; [done|].
  intros it Hit Hd. rewrite sort_perm in Hit.
  destruct (Hin it Hit) as (st & Hst & Hcand).
  rewrite Hcand in Hd. apply candidate_front in Hd as (v & tl & Hfront).
  rewrite <- Hcand in Hfront.
  exists (Stream.throw_out_late (current_ts s) st), v, tl.
  split; [|done]. simpl. by rewrite list_lookup_fmap, Hst.
Qed.

(** C3, as amended.  The candidates are scanned in an order that is a
    permutation of them, ascending by [next_ts].  When [step] delivers, the
    sample comes from a candidate that has data and whose [next_ts] is the
    least among the candidates with data.  Among candidates with data and
    that same [next_ts], it is the one registered first provided the sort
    keeps equal elements in order, which [std::sort] does not promise. *)
Theorem step_scan_order (Sort : StdSort) s :
  sort (candidates s) ≡ₚ candidates s ∧
  StronglySorted StreamIndex.ordered (sort (candidates s)) ∧
  ((step s).1 = true →
   ∃ it v,
     it ∈ candidates s ∧ StreamIndex.hasData it = true ∧
     calls (step s).2 =
       calls s ++ [(StreamIndex.stream it, StreamIndex.time it, v)] ∧
     ∀ b, b ∈ candidates s → StreamIndex.hasData b = true →
       StreamIndex.time it <= StreamIndex.time b ∧
       (stable Sort → StreamIndex.time b = StreamIndex.time it →
        (StreamIndex.stream it ≤ StreamIndex.stream b)%nat)).
Proof.
  split; [apply sort_perm|]. split; [apply sort_sorted|].
  intros Hr.
  destruct (step_emits s Hr) as (l1 & it & l2 & v & Hsort & Hl1 & Hit & Hc).
  exists it, v. split_and!; try done.
  { rewrite <- (sort_perm (candidates s)), Hsort.
    apply elem_of_app. right. apply list_elem_of_here. }
  intros b Hb Hbd.
  pose proof (sort_sorted (candidates s)) as Hsorted.
  rewrite Hsort in Hsorted.
  apply StronglySorted_app in Hsorted as (_ & _ & Hsorted).
  apply StronglySorted_cons in Hsorted as [Hafter _].
  rewrite <- (sort_perm (candidates s)), Hsort in Hb.
  apply elem_of_app in Hb as [Hb|Hb].
  { rewrite Forall_forall in Hl1. rewrite (Hl1 b Hb) in Hbd. done. }
  apply elem_of_cons in Hb as [->|Hb]; [split; [lia | intros; lia]|].
  split.
  { rewrite Forall_forall in Hafter. by apply Sorts.ordered_le, Hafter. }
  intros Hstable Ht.
  pose proof (candidates_registration_order s) as Hreg.
  apply (StronglySorted_filter _
           (λ a, StreamIndex.time a = StreamIndex.time it)) in Hreg.
  fold (at_time (StreamIndex.time it) (candidates s)) in Hreg.
  rewrite <- Hstable, Hsort in Hreg.
  unfold at_time in Hreg. rewrite filter_app, filter_cons in Hreg.
  rewrite decide_True in Hreg by done.
  apply StronglySorted_app in Hreg as (_ & _ & Hreg).
  apply StronglySorted_cons in Hreg as [Hreg _].
  rewrite Forall_forall in Hreg.
  assert (registered_before it b) as Hlt.
  { apply Hreg. by apply list_elem_of_filter. }
  unfold registered_before in Hlt. lia.
Qed.

End scan_order.

(** C3: the claim as stated fails with the [std::sort] of libstdc++ as soon
    as more than sixteen candidates go through it.  Seventeen streams hold
    one sample each, all stamped 5.  The candidates are collected in the
    order of registration; the sort leaves the candidate of stream 8 in
    front, so the sample of stream 8 is delivered while that of stream 0,
    registered first and stamped the same, stays queued. *)
Lemma seventeen_tied_streams_out_of_order :
  candidates Demo.seventeen_streams_tied =
    (λ i, StreamIndex.mk 5 true i) <$> seq 0 17 ∧
  StreamIndex.stream <$>
    Libstdcxx.sort StreamIndex.lt (candidates Demo.seventeen_streams_tied) =
    [8; 16; 15; 14; 13; 12; 11; 10; 9; 0; 7; 6; 5; 4; 3; 2; 1]%nat ∧
  (step (Sort := Sorts.libstdcxx_sort) Demo.seventeen_streams_tied).1 = true ∧
  calls (step (Sort := Sorts.libstdcxx_sort) Demo.seventeen_streams_tied).2 =
    [(8%nat, 5, 108)] ∧
  queue 0 (step (Sort := Sorts.libstdcxx_sort) Demo.seventeen_streams_tied).2 =
    [(5, 100)].
Proof. repeat split; vm_compute; reflexivity. Qed.

Lemma step_scan_order_witness :
  ∃ it v,
    it ∈ candidates Demo.two_streams_tied ∧ StreamIndex.hasData it = true ∧
    calls (step (Sort := Sorts.insertion_sort) Demo.two_streams_tied).2 =
      calls Demo.two_streams_tied ++
        [(StreamIndex.stream it, StreamIndex.time it, v)] ∧
    ∀ b, b ∈ candidates Demo.two_streams_tied →
      StreamIndex.hasData b = true →
      StreamIndex.time it <= StreamIndex.time b ∧
      (StreamIndex.time b = StreamIndex.time it →
       (StreamIndex.stream it ≤ StreamIndex.stream b)%nat).
Proof.
  destruct (step_scan_order Sorts.insertion_sort Demo.two_streams_tied)
    as (_ & _ & Hemit).
  destruct (Hemit eq_refl) as (it & v & Hin & Hd & Hc & Hleast).
  exists it, v. split_and!; try done.
  intros b Hb Hbd. destruct (Hleast b Hb Hbd) as [Hle Htie].
  split; [done|]. apply Htie, Sorts.insertion_sort_stable.
Defined.

(** With the sort of libstdc++ and at most sixteen streams, hence at most
    sixteen candidates, the sample delivered comes from the stream registered
    first among the candidates with data and the least [next_ts]. *)
Lemma step_ties_upto_threshold {Ty Val : Type} `{EqDecision Ty}
    (s : SampleReader.t Ty Val) :
  (length (streams s) ≤ Libstdcxx.threshold)%nat →
  (step (Sort := Sorts.libstdcxx_sort) s).1 = true →
  ∃ it v,
    it ∈ candidates s ∧ StreamIndex.hasData it = true ∧
    calls (step (Sort := Sorts.libstdcxx_sort) s).2 =
      calls s ++ [(StreamIndex.stream it, StreamIndex.time it, v)] ∧
    ∀ b, b ∈ candidates s → StreamIndex.hasData b = true →
      StreamIndex.time it <= StreamIndex.time b ∧
      (StreamIndex.time b = StreamIndex.time it →
       (StreamIndex.stream it ≤ StreamIndex.stream b)%nat).
Proof.
  intros Hlen Hr.
  destruct (step_emits (Sort := Sorts.libstdcxx_sort) s Hr)
    as (l1 & it & l2 & v & Hsort & Hl1 & Hit & Hc).
  assert (length (candidates s) ≤ Libstdcxx.threshold)%nat as Hcand.
  { unfold candidates. rewrite collect_items.
    etrans; [apply length_filter|]. by rewrite length_imap. }
  exists it, v. split_and!; try done.
  { rewrite <- (sort_perm (StdSort := Sorts.libstdcxx_sort) (candidates s)),
      Hsort.
    apply elem_of_app. right. apply list_elem_of_here. }
  intros b Hb Hbd.
  pose proof (sort_sorted (StdSort := Sorts.libstdcxx_sort) (candidates s))
    as Hsorted.
  rewrite Hsort in Hsorted.
  apply StronglySorted_app in Hsorted as (_ & _ & Hsorted).
  apply StronglySorted_cons in Hsorted as [Hafter _].
  rewrite <- (sort_perm (StdSort := Sorts.libstdcxx_sort) (candidates s)),
    Hsort in Hb.
  apply elem_of_app in Hb as [Hb|Hb].
  { rewrite Forall_forall in Hl1. rewrite (Hl1 b Hb) in Hbd. done. }
  apply elem_of_cons in Hb as [->|Hb]; [split; [lia | intros; lia]|].
  split.
  { rewrite Forall_forall in Hafter. by apply Sorts.ordered_le, Hafter. }
  intros Ht.
  pose proof (candidates_registration_order s) as Hreg.
  apply (StronglySorted_filter _
           (λ a, StreamIndex.time a = StreamIndex.time it)) in Hreg.
  fold (at_time (StreamIndex.time it) (candidates s)) in Hreg.
  rewrite <- (Sorts.libstdcxx_sort_keeps_ties _ _ Hcand), Hsort in Hreg.
  unfold at_time in Hreg. rewrite filter_app, filter_cons in Hreg.
  rewrite decide_True in Hreg by done.
  apply StronglySorted_app in Hreg as (_ & _ & Hreg).
  apply StronglySorted_cons in Hreg as [Hreg _].
  rewrite Forall_forall in Hreg.
  assert (registered_before it b) as Hlt.
  { apply Hreg. by apply list_elem_of_filter. }
  unfold registered_before in Hlt. lia.
Qed.

(** Two tied streams are within that bound: the sample of stream 0 is
    delivered first. *)
Example two_tied_streams_in_order :
  calls (step (Sort := Sorts.libstdcxx_sort) Demo.two_streams_tied).2 =
    [(0%nat, 5, 100)] ∧
  queue 1 (step (Sort := Sorts.libstdcxx_sort) Demo.two_streams_tied).2 =
    [(5, 200)].
Proof. split; reflexivity. Qed.



(** * Further properties of the code *)

(** [lia] after the aliases of [Z] and of the sample type are unfolded. *)
Ltac tlia := unfold Time, Stream.item in *; lia.

(** ** Queues are ordered *)

Section queues.
Context {Ty Val : Type} `{EqDecision Ty} {Sort : StdSort}.
Implicit Types (s : SampleReader.t Ty Val) (st : Stream.t Ty Val).
Implicit Types (sts : list (Stream.t Ty Val)) (o : op Ty Val).

Lemma well_queued_shrinks latest st st' :
  shrinks st st' → well_queued latest st → well_queued latest st'.
Proof.
  intros (_ & _ & _ & Hlt & [k Hsuf]) (Hs & Hb & Hl).
  unfold well_queued. rewrite Hlt. rewrite Hsuf in Hs, Hb.
  rewrite fmap_app in Hs. apply StronglySorted_app_1_r in Hs.
  apply Forall_app in Hb as [_ Hb]. done.
Qed.

Lemma well_queued_mono latest latest' st :
  latest <= latest' → well_queued latest st → well_queued latest' st.
Proof. intros Hle (Hs & Hb & Hl). split_and!; try done; lia. Qed.

Lemma stream_push_well_queued latest st ts data :
  ts <= latest → well_queued latest st →
  well_queued latest (Stream.push st ts data).
Proof.
  intros Hts Hw. unfold Stream.push.
  destruct (Z.ltb_spec ts (Stream.lastTime st)) as [Hlt|Hge]; [done|].
  assert (shrinks st (Stream.mk (Stream.elem st)
            (Stream.make_space (Stream.bufferSize st) (Stream.buffer st))
            (Stream.bufferSize st) (Stream.period st) (Stream.lastTime st)
            (Stream.overdue st))) as Hsh.
  { repeat split. apply make_space_suffix. }
  apply (well_queued_shrinks latest) in Hsh; [|done].
  destruct Hsh as (Hs & Hb & Hl). simpl in *.
  unfold well_queued. simpl. split_and!; try lia.
  - rewrite fmap_app. apply StronglySorted_app_2; [|done|].
    + intros x1 x2 Hx1 Hx2. apply list_elem_of_singleton in Hx2 as ->.
      apply list_elem_of_fmap in Hx1 as (x & -> & Hx).
      rewrite Forall_forall in Hb. specialize (Hb x Hx). simpl. tlia.
    + repeat constructor.
  - apply Forall_app_2.
    + eapply Forall_impl; [exact Hb|]. simpl. intros; tlia.
    + apply Forall_singleton. simpl. tlia.
Qed.

(** The invariant: the latest time is not negative and every stream is
    well queued below it. *)
Lemma queues_exec o s s' :
  exec o s = Some s' →
  0 <= latest_ts s ∧ Forall (well_queued (latest_ts s)) (streams s) →
  0 <= latest_ts s' ∧ Forall (well_queued (latest_ts s')) (streams s').
Proof.
  destruct o as [T bs p|tm|idx T ts d|]; simpl.
  - intros [= <-] [H0 Hw]. simpl. split; [done|].
    apply Forall_app_2; [done|]. apply Forall_singleton.
    unfold well_queued. simpl. split_and!; try constructor; lia.
  - by intros [= <-].
  - destruct (Z.lt_ge_cases idx 0) as [Hi|Hi].
    { rewrite push_negative_index by done. by intros [= <-]. }
    destruct (Z.lt_ge_cases (ts + timeout s) (latest_ts s)) as [Hs|Hs].
    { rewrite push_stale by done. by intros [= <-]. }
    rewrite push_fresh by done. simpl.
    destruct (streams s !! Z.to_nat idx) as [st|] eqn:Hst; [|done].
    case_decide; [|done]. intros [= <-] [H0 Hw]. simpl.
    split; [lia|]. apply Forall_insert.
    + eapply Forall_impl; [exact Hw|].
      intros x. apply well_queued_mono. lia.
    + apply stream_push_well_queued; [lia|].
      eapply well_queued_mono; [|by eapply Forall_lookup_1]. lia.
  - intros [= <-] [H0 Hw].
    destruct (step_post_step s) as (_ & Hl & Hsh & _). rewrite Hl.
    split; [done|].
    eapply Forall_shrinks; [|exact Hsh|exact Hw].
    apply well_queued_shrinks.
Qed.

Lemma queues_run_from ops s :
  0 <= latest_ts s ∧ Forall (well_queued (latest_ts s)) (streams s) →
  0 <= latest_ts (run ops s) ∧
  Forall (well_queued (latest_ts (run ops s))) (streams (run ops s)).
Proof.
  revert s. induction ops as [|o ops IH]; intros s Hs; simpl; [done|].
  destruct (exec o s) eqn:Ho; [|done].
  apply IH. by eapply queues_exec.
Qed.

Lemma queues_run tm (ops : list (op Ty Val)) :
  0 <= latest_ts (run ops (SampleReader.new tm)) ∧
  Forall (well_queued (latest_ts (run ops (SampleReader.new tm))))
    (streams (run ops (SampleReader.new tm))).
Proof. apply queues_run_from. simpl. split; [done | constructor]. Qed.

End queues.

(** ** push and registerStream, further *)

Section push_extras.
Context {Ty Val : Type} `{EqDecision Ty}.
Implicit Types (s : SampleReader.t Ty Val) (st : Stream.t Ty Val).
Implicit Types (idx : Z) (T : Ty) (ts : Time) (data : Val).

(** X1.  In every execution, the time stamps queued in a stream are in
    non-decreasing order, none is above the stream's [lastTime], and
    [lastTime] is between zero and [latest_ts]. *)
Theorem queues_ordered
    (Sort : StdSort) (tm : Time) (ops : list (op Ty Val)) :
  let s := run ops (SampleReader.new tm) in
  Forall (well_queued (latest_ts s)) (streams s).
Proof. apply queues_run. Qed.

(** X2.  A push that returns invokes no callback and leaves [current_ts],
    the timeout, the number of streams and every stream other than [idx] as
    they were; of the stream [idx] it keeps the element type, the capacity,
    the period and the [overdue] flag. *)
Theorem push_frame s idx T ts data s' :
  push s idx T ts data = Return s' →
  calls s' = calls s ∧ current_ts s' = current_ts s ∧
  timeout s' = timeout s ∧
  length (streams s') = length (streams s) ∧
  (∀ j, j ≠ Z.to_nat idx → streams s' !! j = streams s !! j) ∧
  (∀ st', streams s' !! Z.to_nat idx = Some st' →
     ∃ st, streams s !! Z.to_nat idx = Some st ∧
       Stream.elem st' = Stream.elem st ∧
       Stream.bufferSize st' = Stream.bufferSize st ∧
       Stream.period st' = Stream.period st ∧
       Stream.overdue st' = Stream.overdue st).
Proof.
  intros Hp.
  destruct (Z.lt_ge_cases idx 0) as [Hi|Hi].
  { by rewrite push_negative_index in Hp. }
  destruct (Z.lt_ge_cases (ts + timeout s) (latest_ts s)) as [Hs|Hs].
  { rewrite push_stale in Hp by done. injection Hp as <-.
    split_and!; try done. eauto 10. }
  rewrite push_fresh in Hp by done. simpl in Hp.
  destruct (streams s !! Z.to_nat idx) as [st|] eqn:Hst; [|done].
  case_decide; [|done]. injection Hp as <-. simpl.
  split_and!; try done.
  - apply length_insert.
  - intros j Hj. by apply list_lookup_insert_ne.
  - intros st'.
    rewrite list_lookup_insert_eq by (by eapply lookup_lt_Some).
    intros [= <-]. exists st. split; [done|].
    unfold Stream.push. by destruct (ts <? Stream.lastTime st).
Qed.

(** X3.  In every execution, a push to a stream of the right type with a
    time stamp older than the stream's [lastTime] changes nothing at all:
    the sample is not queued and [latest_ts] stays. *)
Theorem push_out_of_order_ignored
    (Sort : StdSort) (tm : Time) (ops : list (op Ty Val))
    idx T ts data st :
  let s := run ops (SampleReader.new tm) in
  0 <= idx → streams s !! Z.to_nat idx = Some st → Stream.elem st = T →
  ts < Stream.lastTime st →
  push s idx T ts data = Return s.
Proof.
  intros s Hi Hst HT Hts.
  destruct (Z.lt_ge_cases (ts + timeout s) (latest_ts s)) as [Hs|Hs].
  { by apply push_stale. }
  rewrite push_fresh by done. simpl. rewrite Hst.
  rewrite decide_True by done.
  destruct (queues_run tm ops) as [_ Hw]. fold s in Hw.
  eapply Forall_lookup_1 in Hw as (_ & _ & Hl); [|exact Hst].
  rewrite Z.max_l by lia.
  unfold Stream.push. rewrite (proj2 (Z.ltb_lt _ _) Hts).
  rewrite list_insert_id by done. by destruct s.
Qed.

(** X4.  [registerStream] returns the number of streams registered before,
    which indexes the new stream: its buffer status is empty with the
    capacity asked for; the buffer status of every earlier index, the
    clocks, the timeout and the record of deliveries are unchanged. *)
Theorem registerStream_new_index s T (bufferSize : Z) (period : Time) :
  let r := registerStream s T bufferSize period in
  r.2 = Z.of_nat (length (streams s)) ∧
  streams r.1 !! Z.to_nat r.2 =
    Some (Stream.new T (size_t_of_int bufferSize) period) ∧
  getBufferStatus r.1 r.2 = Some (0%nat, size_t_of_int bufferSize) ∧
  (∀ idx, 0 <= idx < r.2 →
     getBufferStatus r.1 idx = getBufferStatus s idx) ∧
  latest_ts r.1 = latest_ts s ∧ current_ts r.1 = current_ts s ∧
  timeout r.1 = timeout s ∧ calls r.1 = calls s.
Proof.
  simpl.
  assert (∀ n : nat, (Z.of_nat n <? 0) = false) as Hneg.
  { intros n. apply Z.ltb_ge. lia. }
  split_and!; try done.
  - rewrite Nat2Z.id. rewrite lookup_app_r by done.
    by rewrite Nat.sub_diag.
  - unfold getBufferStatus. simpl. rewrite Hneg, Nat2Z.id.
    rewrite lookup_app_r by done. by rewrite Nat.sub_diag.
  - intros idx [H0 Hlt]. unfold getBufferStatus. simpl.
    rewrite (proj2 (Z.ltb_ge _ _) H0).
    rewrite lookup_app_l by lia. done.
Qed.

End push_extras.

Lemma push_frame_witness :
  let s' := set_streams
              [Stream.mk Demo.TInt [(10, 5); (12, 6)] 10 0 12 false]
              (set_latest_ts 12 Demo.one_stream_at_10) in
  push Demo.one_stream_at_10 0 Demo.TInt 12 6 = Return s' ∧
  calls s' = calls Demo.one_stream_at_10 ∧
  current_ts s' = current_ts Demo.one_stream_at_10.
Proof.
  intros s'.
  assert (push Demo.one_stream_at_10 0 Demo.TInt 12 6 = Return s') as Hp
    by reflexivity.
  destruct (push_frame Demo.one_stream_at_10 0 Demo.TInt 12 6 s' Hp)
    as (Hc & Hcu & _).
  by split.
Defined.

Lemma push_out_of_order_ignored_witness :
  push Demo.one_stream_at_10 0 Demo.TInt 9 7 = Return Demo.one_stream_at_10.
Proof.
  apply (push_out_of_order_ignored Sorts.insertion_sort 2
           [OpRegister Demo.TInt 10 0; OpPush 0 Demo.TInt 10 5]
           0 Demo.TInt 9 7 (Stream.mk Demo.TInt [(10, 5)] 10 0 10 false));
    [lia | reflexivity | reflexivity | by vm_compute].
Defined.

(** ** step, further *)

Section step_extras.
Context {Ty Val : Type} `{EqDecision Ty} {Sort : StdSort}.
Implicit Types (s : SampleReader.t Ty Val) (st : Stream.t Ty Val).
Implicit Types (sts : list (Stream.t Ty Val)).
Implicit Types (it a b : StreamIndex.t) (l : list StreamIndex.t).

Lemma collect_listHasData_existsb cur i sts :
  (collect cur i sts).2 = existsb StreamIndex.hasData (collect cur i sts).1.2.
Proof.
  revert i. induction sts as [|st sts IH]; intros i; simpl; [done|].
  specialize (IH (S i)). destruct (collect cur (S i) sts) as [[r its] b].
  simpl in IH. subst b. by destruct (_ || _); simpl.
Qed.

(** [step] in one equation: the sweep, then the scan of the sorted
    candidates when one of them has data. *)
Lemma step_unfold s :
  step s =
    if existsb StreamIndex.hasData (candidates s)
    then scan (sort (candidates s)) (swept s)
    else (false, swept s).
Proof.
  unfold step, candidates, swept.
  destruct (streams s) as [|st0 sts0] eqn:Hs.
  { simpl. destruct s. simpl in *. by subst. }
  rewrite <- Hs. clear st0 sts0 Hs.
  pose proof (collect_streams (current_ts s) 0 (streams s)) as Hsts.
  pose proof (collect_listHasData_existsb (current_ts s) 0 (streams s))
    as Hlhd.
  destruct (collect (current_ts s) 0 (streams s)) as [[sts items] lhd].
  simpl in *. subst sts lhd.
  destruct items as [|it0 items0]; [done|].
  by destruct (existsb _ _).
Qed.

Lemma candidates_cases s it :
  it ∈ candidates s →
  ∃ st, streams s !! StreamIndex.stream it = Some st ∧
        it = candidate (current_ts s) (StreamIndex.stream it) st.
Proof. apply collect_elem_of. Qed.

Lemma candidates_fronts s it :
  it ∈ candidates s → StreamIndex.hasData it = true →
  ∃ st v tl, streams (swept s) !! StreamIndex.stream it = Some st ∧
     Stream.buffer st = (StreamIndex.time it, v) :: tl ∧
     current_ts s <= StreamIndex.time it.
Proof.
  intros Hit Hd. destruct (candidates_cases s it Hit) as (st & Hst & Hcand).
  rewrite Hcand in Hd. apply candidate_front in Hd as (v & tl & Hfront).
  rewrite <- Hcand in Hfront.
  exists (Stream.throw_out_late (current_ts s) st), v, tl.
  split_and!; [|done|by eapply drop_late_front].
  unfold swept. simpl. by rewrite list_lookup_fmap, Hst.
Qed.

(** A stream that has data after the sweep is a candidate. *)
Lemma candidates_data s j st :
  streams s !! j = Some st →
  Stream.hasData (Stream.throw_out_late (current_ts s) st) = true →
  candidate (current_ts s) j st ∈ candidates s.
Proof.
  intros Hst Hd. unfold candidates. rewrite collect_items.
  apply list_elem_of_filter. split.
  - unfold considered, candidate. simpl. by rewrite Hd.
  - apply elem_of_lookup_imap. exists j, st. done.
Qed.

Lemma existsb_hasData l :
  existsb StreamIndex.hasData l = true ↔
  ∃ b, b ∈ l ∧ StreamIndex.hasData b = true.
Proof.
  rewrite existsb_exists. split; intros (b & Hb & Hd); exists b.
  - by rewrite list_elem_of_In.
  - by rewrite <- list_elem_of_In.
Qed.

(** When the second loop returns false although a candidate has data, it
    stopped at a candidate without data that is still within the timeout,
    all candidates before it being without data. *)
Lemma scan_blocked l : ∀ s,
  (scan l s).1 = false →
  (∃ b, b ∈ l ∧ StreamIndex.hasData b = true) →
  ∃ l1 a l2,
    l = l1 ++ a :: l2 ∧
    Forall (λ x, StreamIndex.hasData x = false) l1 ∧
    StreamIndex.hasData a = false ∧
    latest_ts s < StreamIndex.time a + timeout s.
Proof.
  induction l as [|x l IH]; intros s Hr (b & Hb & Hd); simpl in *.
  { by apply elem_of_nil in Hb. }
  destruct (StreamIndex.hasData x) eqn:Hx; [done|].
  destruct (Z.ltb_spec (latest_ts s) (StreamIndex.time x + timeout s))
    as [Hw|Hw].
  { exists [], x, l. by split_and!. }
  apply elem_of_cons in Hb as [->|Hb]; [congruence|].
  destruct (IH _ Hr) as (l1 & a & l2 & -> & Hl1 & Ha & Hlt); [eauto|].
  destruct (mark_overdue_frame (StreamIndex.stream x) s)
    as (Ht & Hl & _).
  exists (x :: l1), a, l2. split_and!; try done; [by constructor|].
  by rewrite <- Ht, <- Hl.
Qed.

End step_extras.

Section step_outcomes.
Context {Ty Val : Type} `{EqDecision Ty} {Sort : StdSort}.
Implicit Types (s : SampleReader.t Ty Val) (st : Stream.t Ty Val).
Implicit Types (sts : list (Stream.t Ty Val)).
Implicit Types (it a b : StreamIndex.t) (l : list StreamIndex.t).

Lemma swept_frame s :
  timeout (swept s) = timeout s ∧ latest_ts (swept s) = latest_ts s ∧
  current_ts (swept s) = current_ts s ∧ calls (swept s) = calls s.
Proof. done. Qed.

Lemma throw_out_late_empty cur st :
  Stream.buffer st = [] → Stream.throw_out_late cur st = st.
Proof.
  intros Hb. unfold Stream.throw_out_late. rewrite Hb. simpl.
  destruct st. simpl in *. by subst.
Qed.



(** X5.  A call of [step] never touches [latest_ts], the timeout or the
    number of streams.  When it returns true it has invoked exactly one
    callback, with a sample that was queued in that stream and is not
    older than [current_ts], which becomes the sample's time; the samples
    queued before it in that stream are gone.  When it returns false it has
    invoked no callback and [current_ts] stays. *)
Theorem step_delivers_at_most_one s :
  timeout (step s).2 = timeout s ∧
  latest_ts (step s).2 = latest_ts s ∧
  length (streams (step s).2) = length (streams s) ∧
  if (step s).1
  then ∃ i t v st st',
         current_ts s <= t ∧ current_ts (step s).2 = t ∧
         calls (step s).2 = calls s ++ [(i, t, v)] ∧
         streams s !! i = Some st ∧ streams (step s).2 !! i = Some st' ∧
         (t, v) :: Stream.buffer st' `suffix_of` Stream.buffer st
  else calls (step s).2 = calls s ∧ current_ts (step s).2 = current_ts s.
Proof.
  destruct (step_post_step s) as (Ht & Hl & Hsh & Hcase).
  split_and!; try done.
  { symmetry. by eapply Forall2_length. }
  destruct Hcase as [(-> & Hc)|(-> & Hc)]; done.
Qed.

(** X6.  With nothing queued in any stream (in particular with no stream),
    [step] returns false and leaves the aggregator exactly as it was: no
    stream is marked overdue. *)
Theorem step_idle s :
  Forall (λ st, Stream.buffer st = []) (streams s) → step s = (false, s).
Proof.
  intros Hempty. rewrite step_unfold.
  assert (swept s = s) as ->.
  { unfold swept.
    assert (Stream.throw_out_late (current_ts s) <$> streams s = streams s)
      as ->.
    { rewrite <- (list_fmap_id (streams s)) at 2.
      apply Forall_fmap_ext_1.
      eapply Forall_impl; [exact Hempty|]. intros st Hst. simpl.
      by apply throw_out_late_empty. }
    by destruct s. }
  destruct (existsb _ _) eqn:He; [|done].
  apply existsb_hasData in He as (b & Hb & Hd).
  destruct (candidates_cases s b Hb) as (st & Hst & Hcand).
  eapply Forall_lookup_1 in Hempty; [|exact Hst].
  rewrite Hcand in Hd. unfold candidate, Stream.hasData in Hd. simpl in Hd.
  by rewrite Hempty in Hd.
Qed.

(** X7.  If some candidate has data and every candidate without data has
    run out of its timeout ([next_ts + timeout <= latest_ts]), [step]
    delivers a sample: a missing stream holds the others back no longer
    than the timeout. *)
Theorem step_delivers_when_unblocked s :
  (∃ b, b ∈ candidates s ∧ StreamIndex.hasData b = true) →
  (∀ a, a ∈ candidates s → StreamIndex.hasData a = false →
     StreamIndex.time a + timeout s <= latest_ts s) →
  (step s).1 = true.
Proof.
  intros Hdata Hout. rewrite step_unfold.
  rewrite (proj2 (existsb_hasData _) Hdata).
  destruct (scan (sort (candidates s)) (swept s)).1 eqn:Hr; [done|].
  apply scan_blocked in Hr as (l1 & a & l2 & Hsort & _ & Ha & Hlt).
  - assert (a ∈ candidates s) as Hin.
    { rewrite <- (sort_perm (candidates s)), Hsort.
      apply elem_of_app. right. apply list_elem_of_here. }
    specialize (Hout a Hin Ha). simpl in Hlt. tlia.
  - destruct Hdata as (b & Hb & Hd). exists b.
    by rewrite (sort_perm (candidates s)).
Qed.

(** X8.  If [step] returns false although some candidate has data, a
    candidate without data is still within its timeout
    ([next_ts + timeout > latest_ts]) and is expected no later than every
    candidate with data. *)
Theorem step_waits_for_pending s b :
  (step s).1 = false →
  b ∈ candidates s → StreamIndex.hasData b = true →
  ∃ a, a ∈ candidates s ∧ StreamIndex.hasData a = false ∧
       latest_ts s < StreamIndex.time a + timeout s ∧
       ∀ b', b' ∈ candidates s → StreamIndex.hasData b' = true →
             StreamIndex.time a <= StreamIndex.time b'.
Proof.
  intros Hr Hb Hd. rewrite step_unfold in Hr.
  rewrite (proj2 (existsb_hasData _) (ex_intro _ b (conj Hb Hd))) in Hr.
  apply scan_blocked in Hr as (l1 & a & l2 & Hsort & Hl1 & Ha & Hlt);
    [|exists b; by rewrite (sort_perm (candidates s))].
  exists a. split_and!; try done.
  { rewrite <- (sort_perm (candidates s)), Hsort.
    apply elem_of_app. right. apply list_elem_of_here. }
  intros b' Hb' Hd'.
  pose proof (sort_sorted (candidates s)) as Hsorted.
  rewrite Hsort in Hsorted.
  apply StronglySorted_app in Hsorted as (_ & _ & Hsorted).
  apply StronglySorted_cons in Hsorted as [Hafter _].
  rewrite <- (sort_perm (candidates s)), Hsort in Hb'.
  apply elem_of_app in Hb' as [Hb'|Hb'].
  { rewrite Forall_forall in Hl1. rewrite (Hl1 b' Hb') in Hd'. done. }
  apply elem_of_cons in Hb' as [->|Hb']; [congruence|].
  rewrite Forall_forall in Hafter. by apply Sorts.ordered_le, Hafter.
Qed.


End step_outcomes.

Section after_step.
Context {Ty Val : Type} `{EqDecision Ty} {Sort : StdSort}.
Implicit Types (s : SampleReader.t Ty Val) (st : Stream.t Ty Val).
Implicit Types (it a b : StreamIndex.t) (l : list StreamIndex.t).

Lemma none_before_shrinks c st st' :
  shrinks st st' → none_before c st → none_before c st'.
Proof.
  intros (_ & _ & _ & _ & Hsuf). unfold none_before.
  rewrite !Forall_forall. intros Hb x Hx. apply Hb.
  by eapply elem_of_suffix.
Qed.

Lemma sorted_ge_front (t : Time) (v : Val) tl :
  StronglySorted Z.le ((t, v) :: tl).*1 →
  Forall (λ x, t <= x.1) ((t, v) :: tl).
Proof.
  rewrite fmap_cons. intros [Hhd _]%StronglySorted_cons.
  constructor; [simpl; lia|]. by apply Forall_fst_le.
Qed.

Lemma drop_late_sorted cur (buf : list (Time * Val)) :
  StronglySorted Z.le buf.*1 → StronglySorted Z.le (Stream.drop_late cur buf).*1.
Proof.
  intros Hs. destruct (drop_late_suffix cur buf) as [k Hk].
  rewrite Hk, fmap_app in Hs. by apply StronglySorted_app_1_r in Hs.
Qed.

Lemma drop_late_none_before cur (buf : list (Time * Val)) :
  StronglySorted Z.le buf.*1 →
  Forall (λ x, cur <= x.1) (Stream.drop_late cur buf).
Proof.
  intros Hs. apply (drop_late_sorted cur) in Hs.
  destruct (Stream.drop_late cur buf) as [|[t v] tl] eqn:Hd; [constructor|].
  apply drop_late_front in Hd.
  eapply Forall_impl; [by apply sorted_ge_front|]. simpl. intros; tlia.
Qed.

Lemma step_none_before s latest :
  Forall (well_queued latest) (streams s) →
  Forall (none_before (current_ts (step s).2)) (streams (step s).2).
Proof.
  intros Hw.
  assert (Forall (none_before (current_ts s)) (streams (swept s))) as Hsw.
  { unfold swept. simpl. apply Forall_fmap.
    eapply Forall_impl; [exact Hw|]. intros st (Hs & _). simpl.
    by apply drop_late_none_before. }
  rewrite step_unfold.
  destruct (existsb _ _) eqn:He; [|done].
  pose proof (scan_post (current_ts s) (sort (candidates s)) (swept s))
    as Hpost.
  destruct Hpost as (_ & _ & Hsh & Hcase).
  { intros it Hit Hd. rewrite sort_perm in Hit.
    by apply candidates_fronts. }
  destruct Hcase as [(_ & _ & Hcur)|(Hr & i & t & v & st & st' & Hc)].
  { rewrite Hcur. simpl.
    eapply Forall_shrinks; [|exact Hsh|exact Hsw].
    apply none_before_shrinks. }
  destruct Hc as (_ & -> & Hcalls & _).
  destruct (scan_emits (sort (candidates s)) (swept s))
    as (l1 & it & l2 & v' & Hsort & Hl1 & Hit & Hcalls'); [|done|].
  { intros it Hit Hd. rewrite sort_perm in Hit.
    destruct (candidates_fronts s it Hit Hd) as (st0 & v0 & tl & ? & ? & _).
    eauto. }
  rewrite Hcalls in Hcalls'. apply app_inv_head in Hcalls'.
  injection Hcalls' as -> -> ->.
  eapply Forall_shrinks; [apply none_before_shrinks|exact Hsh|].
  unfold swept. simpl. apply Forall_fmap, Forall_lookup.
  intros j st0 Hst0. simpl. unfold none_before. simpl.
  eapply Forall_lookup_1 in Hw as (Hs0 & _); [|exact Hst0].
  apply (drop_late_sorted (current_ts s)) in Hs0.
  destruct (Stream.drop_late (current_ts s) (Stream.buffer st0))
    as [|[t0 v0] tl0] eqn:Hd; [constructor|].
  assert (StreamIndex.time it <= t0) as Hle.
  { pose proof (candidates_data s j st0 Hst0) as Hin.
    unfold candidate, Stream.hasData, Stream.nextTimeStamp in Hin.
    simpl in Hin. rewrite Hd in Hin. specialize (Hin eq_refl).
    rewrite <- (sort_perm (candidates s)), Hsort in Hin.
    pose proof (sort_sorted (candidates s)) as Hsorted.
    rewrite Hsort in Hsorted.
    apply StronglySorted_app in Hsorted as (_ & _ & Hsorted).
    apply StronglySorted_cons in Hsorted as [Hafter _].
    apply elem_of_app in Hin as [Hin|Hin].
    { rewrite Forall_forall in Hl1. by specialize (Hl1 _ Hin). }
    apply elem_of_cons in Hin as [<-|Hin]; [simpl; lia|].
    rewrite Forall_forall in Hafter. specialize (Hafter _ Hin).
    by apply Sorts.ordered_le in Hafter. }
  eapply Forall_impl; [by apply sorted_ge_front|]. simpl. intros; tlia.
Qed.

(** X10.  In every execution, after a call of [step] no queue holds a
    sample older than [current_ts]: what was too old has been discarded
    without a callback, and the sample delivered, if any, was the oldest
    one queued. *)
Theorem step_leaves_nothing_late (tm : Time) (ops : list (op Ty Val)) :
  let s := run ops (SampleReader.new tm) in
  Forall (none_before (current_ts (step s).2)) (streams (step s).2).
Proof.
  intros s. destruct (queues_run tm ops) as [_ Hw].
  by eapply step_none_before.
Qed.

End after_step.

(** ** The overdue flag *)

Section overdue_flag.
Context {Ty Val : Type} `{EqDecision Ty} {Sort : StdSort}.
Implicit Types (s : SampleReader.t Ty Val) (st : Stream.t Ty Val).
Implicit Types (it a b : StreamIndex.t) (l : list StreamIndex.t).

Lemma pop_stream_lookup_ne i j s :
  i ≠ j → streams (pop_stream i s) !! j = streams s !! j.
Proof.
  intros Hne. unfold pop_stream.
  destruct (streams s !! i) as [st|]; [|done].
  destruct (Stream.pop false st) as [st' c]. simpl.
  by apply list_lookup_insert_ne.
Qed.

Lemma mark_overdue_lookup_ne i j s :
  i ≠ j → streams (mark_overdue i s) !! j = streams s !! j.
Proof.
  intros Hne. unfold mark_overdue.
  destruct (streams s !! i) as [st|]; [|done]. simpl.
  by apply list_lookup_insert_ne.
Qed.

(** A flag that is set after the second loop was set before, or belongs
    to a candidate without data whose timeout has run out. *)
Lemma scan_overdue l : ∀ s j st',
  streams (scan l s).2 !! j = Some st' → Stream.overdue st' = true →
  (∃ st, streams s !! j = Some st ∧ Stream.overdue st = true) ∨
  (∃ a, a ∈ l ∧ StreamIndex.stream a = j ∧
        StreamIndex.hasData a = false ∧
        StreamIndex.time a + timeout s <= latest_ts s).
Proof.
  induction l as [|x l IH]; intros s j st' Hj Ho; simpl in *; [eauto|].
  destruct (StreamIndex.hasData x) eqn:Hx.
  - simpl in Hj. destruct (decide (StreamIndex.stream x = j)) as [<-|Hne].
    + unfold pop_stream in Hj.
      destruct (streams s !! StreamIndex.stream x) as [st|] eqn:Hst;
        [|simpl in Hj; congruence].
      unfold Stream.pop in Hj.
      destruct (Stream.buffer st) as [|front tl] eqn:Hb; simpl in Hj.
      * rewrite list_lookup_insert_eq in Hj by (by eapply lookup_lt_Some).
        injection Hj as <-. left. eauto.
      * rewrite list_lookup_insert_eq in Hj by (by eapply lookup_lt_Some).
        injection Hj as <-. done.
    + rewrite pop_stream_lookup_ne in Hj by done. left. eauto.
  - destruct (Z.ltb_spec (latest_ts s) (StreamIndex.time x + timeout s))
      as [Hw|Hw]; [left; eauto|].
    destruct (mark_overdue_frame (StreamIndex.stream x) s)
      as (Ht & Hl & _).
    destruct (IH _ j st' Hj Ho) as [(st & Hst & Hso)|(a & Ha & ? & ? & Hto)].
    + destruct (decide (StreamIndex.stream x = j)) as [Heq|Hne].
      * right. exists x. split_and!; try done. apply list_elem_of_here.
      * rewrite mark_overdue_lookup_ne in Hst by done. left. eauto.
    + right. exists a. split_and!; try done; [by apply list_elem_of_further|].
      by rewrite <- Ht, <- Hl.
Qed.

(** When the second loop delivers, the flag of the delivering stream is
    clear afterwards. *)
Lemma scan_clears l : ∀ s,
  (∀ it, it ∈ l → StreamIndex.hasData it = true →
     ∃ st v tl, streams s !! StreamIndex.stream it = Some st ∧
        Stream.buffer st = (StreamIndex.time it, v) :: tl) →
  (scan l s).1 = true →
  ∃ i t v st',
    calls (scan l s).2 = calls s ++ [(i, t, v)] ∧
    streams (scan l s).2 !! i = Some st' ∧ Stream.overdue st' = false.
Proof.
  induction l as [|x l IH]; intros s Hl; simpl; [done|].
  destruct (StreamIndex.hasData x) eqn:Hx.
  - intros _.
    destruct (Hl x) as (st & v & tl & Hst & Hbuf);
      [apply list_elem_of_here | done |].
    unfold pop_stream, Stream.pop. rewrite Hst, Hbuf. simpl.
    exists (StreamIndex.stream x), (StreamIndex.time x), v.
    eexists. split; [done|]. split.
    + apply list_lookup_insert_eq. by eapply lookup_lt_Some.
    + done.
  - destruct (latest_ts s <? StreamIndex.time x + timeout s); [done|].
    intros Hr.
    destruct (IH (mark_overdue (StreamIndex.stream x) s))
      as (i & t & v & st' & Hc & Hst' & Ho); [|done|].
    { intros it' Hin Hd'.
      destruct (Hl it') as (st & v & tl & Hst & Hbuf);
        [by apply list_elem_of_further | done |].
      destruct (mark_overdue_lookup (StreamIndex.stream x) _ _ _ Hst)
        as (st' & Hst' & Hb).
      exists st', v, tl. by rewrite Hb. }
    exists i, t, v, st'. split_and!; try done.
    rewrite Hc.
    by destruct (mark_overdue_frame (StreamIndex.stream x) s)
      as (_ & _ & _ & -> & _).
Qed.

(** X11.  [step] sets the [overdue] flag of a stream only if, after the
    sweep, the stream has no data and its expected time plus the timeout is
    not above [latest_ts]; and the stream whose sample it delivers has its
    flag clear afterwards. *)
Theorem step_overdue_flag s j st st' :
  streams s !! j = Some st → streams (step s).2 !! j = Some st' →
  (Stream.overdue st' = true →
   Stream.overdue st = true ∨
   (Stream.hasData (Stream.throw_out_late (current_ts s) st) = false ∧
    Stream.nextTimeStamp (Stream.throw_out_late (current_ts s) st)
      + timeout s <= latest_ts s)) ∧
  (∀ t v, calls (step s).2 = calls s ++ [(j, t, v)] →
          Stream.overdue st' = false).
Proof.
  intros Hst Hst'. rewrite step_unfold in *.
  assert (streams (swept s) !! j
          = Some (Stream.throw_out_late (current_ts s) st)) as Hsw.
  { unfold swept. simpl. by rewrite list_lookup_fmap, Hst. }
  destruct (existsb _ _) eqn:He.
  - split.
    + intros Ho.
      destruct (scan_overdue _ _ _ _ Hst' Ho)
        as [(st0 & Hst0 & Hso)|(a & Ha & Hj & Hd & Hto)].
      * rewrite Hsw in Hst0. injection Hst0 as <-. by left.
      * right. rewrite sort_perm in Ha.
        destruct (candidates_cases s a Ha) as (st0 & Hst0 & Hcand).
        rewrite Hj, Hst in Hst0. injection Hst0 as <-.
        rewrite Hcand in Hd, Hto. simpl in Hd, Hto. by rewrite Hj in *.
    + intros t v Hc.
      destruct (scan (sort (candidates s)) (swept s)).1 eqn:Hr.
      * destruct (scan_clears (sort (candidates s)) (swept s))
          as (i & t0 & v0 & st0 & Hc0 & Hst0 & Ho); [|done|].
        { intros it Hit Hd. rewrite sort_perm in Hit.
          destruct (candidates_fronts s it Hit Hd)
            as (st1 & v1 & tl & ? & ? & _).
          eauto. }
        simpl in Hc0. rewrite Hc in Hc0. apply app_inv_head in Hc0.
        injection Hc0 as -> -> ->. rewrite Hst' in Hst0.
        by injection Hst0 as ->.
      * pose proof (scan_post (current_ts s) (sort (candidates s)) (swept s))
          as (_ & _ & _ & Hcase).
        { intros it Hit Hd. rewrite sort_perm in Hit.
          by apply candidates_fronts. }
        destruct Hcase as [(_ & Hca & _)|(Hr' & _)]; [|congruence].
        simpl in Hca. rewrite Hca in Hc.
        apply (f_equal length) in Hc. rewrite length_app in Hc.
        simpl in Hc. lia.
  - simpl in *. rewrite Hsw in Hst'. injection Hst' as <-. split.
    + intros Ho. by left.
    + intros t v Hc. apply (f_equal length) in Hc.
      rewrite length_app in Hc. simpl in Hc. lia.
Qed.

End overdue_flag.

(** ** A stream under a burst of pushes *)

Section burst.
Context {Ty Val : Type}.
Implicit Types (st : Stream.t Ty Val) (buf l : list (Time * Val)).

Lemma newest_app {A} (n : nat) (a b : list A) :
  newest n (newest n a ++ b) = newest n (a ++ b).
Proof.
  unfold newest. rewrite !drop_app, !length_app, !length_drop, drop_drop.
  f_equal; f_equal; lia.
Qed.

Lemma newest_all {A} (n : nat) (l : list A) :
  (length l ≤ n)%nat → newest n l = l.
Proof.
  intros Hl. unfold newest. by replace (length l - n)%nat with 0%nat by lia.
Qed.

Lemma make_space_newest n buf (x : Time * Val) :
  (0 < n)%nat → Stream.make_space n buf ++ [x] = newest n (buf ++ [x]).
Proof.
  intros Hn. unfold newest. rewrite length_app. simpl.
  induction buf as [|y buf IH].
  { simpl. by replace (1 - n)%nat with 0%nat by lia. }
  rewrite make_space_cons.
  destruct (Nat.ltb_spec 0 n); [|lia].
  destruct (Nat.leb_spec n (S (length buf))) as [Hle|Hgt]; simpl andb;
    cbv iota.
  - rewrite IH. simpl length.
    replace (S (length buf) + 1 - n)%nat with (S (length buf + 1 - n)) by lia.
    done.
  - simpl length. by replace (S (length buf) + 1 - n)%nat with 0%nat by lia.
Qed.

Lemma stream_push_accept st ts (data : Val) :
  Stream.lastTime st <= ts →
  Stream.push st ts data =
    Stream.mk (Stream.elem st)
      (Stream.make_space (Stream.bufferSize st) (Stream.buffer st)
         ++ [(ts, data)])
      (Stream.bufferSize st) (Stream.period st) ts (Stream.overdue st).
Proof.
  intros Hts. unfold Stream.push. by rewrite (proj2 (Z.ltb_ge _ _) Hts).
Qed.

Lemma push_all_cons st (x : Time * Val) l :
  push_all st (x :: l) = push_all (Stream.push st x.1 x.2) l.
Proof. reflexivity. Qed.

(** X12.  Pushing to a stream a run of samples in time order, none older
    than [lastTime], stores them all when the stream is unbounded
    ([bufferSize = 0]) and otherwise leaves the [bufferSize] newest of the
    samples queued before and pushed now; [lastTime] is the time of the
    last one, and the fill reported by [getBufferStatus] is the number of
    samples capped by the capacity. *)
Theorem push_all_keeps_newest st l :
  StronglySorted Z.le l.*1 →
  Forall (λ x, Stream.lastTime st <= x.1) l →
  within_capacity st →
  Stream.buffer (push_all st l) =
    (if decide (Stream.bufferSize st = 0%nat)
     then Stream.buffer st ++ l
     else newest (Stream.bufferSize st) (Stream.buffer st ++ l)) ∧
  Stream.lastTime (push_all st l) = last_ts (Stream.lastTime st) l ∧
  Stream.getBufferStatus (push_all st l) =
    (if decide (Stream.bufferSize st = 0%nat)
     then (length (Stream.buffer st) + length l)%nat
     else Nat.min (length (Stream.buffer st) + length l)
            (Stream.bufferSize st),
     Stream.bufferSize st).
Proof.
  intros Hs Hl Hc.
  assert (∀ n st, Stream.bufferSize st = n →
            StronglySorted Z.le l.*1 →
            Forall (λ x, Stream.lastTime st <= x.1) l →
            within_capacity st →
            Stream.buffer (push_all st l) =
              (if decide (n = 0%nat) then Stream.buffer st ++ l
               else newest n (Stream.buffer st ++ l)) ∧
            Stream.lastTime (push_all st l)
              = last_ts (Stream.lastTime st) l ∧
            Stream.bufferSize (push_all st l) = n) as Hgen.
  { clear. intros n. induction l as [|[ts d] l IH]; intros st Hn Hs Hl Hc.
    - simpl. rewrite app_nil_r. split_and!; try done.
      case_decide; [done|]. symmetry. apply newest_all.
      rewrite <- Hn. apply Hc. lia.
    - rewrite fmap_cons in Hs. apply StronglySorted_cons in Hs as [Hhd Hs].
      apply Forall_cons in Hl as [Hts _]. simpl in Hts.
      rewrite push_all_cons. cbn [fst snd].
      rewrite stream_push_accept by done.
      set (st1 := Stream.mk _ _ _ _ _ _).
      destruct (IH st1) as (Hb & Hlt & Hsz);
        [done | done | by apply Forall_fst_le | |].
      { unfold within_capacity. simpl. intros Hpos. rewrite length_app.
        pose proof (make_space_length _ (Stream.buffer st) Hpos).
        simpl. tlia. }
      rewrite Hb, Hlt, Hsz. subst st1. simpl.
      split_and!; try done.
      case_decide as Hz.
      + rewrite make_space_room by (left; congruence).
        by rewrite <- app_assoc.
      + rewrite Hn.
        pose proof (proj1 (Nat.neq_0_lt_0 _) Hz) as Hpos.
        rewrite (make_space_newest _ _ _ Hpos). rewrite newest_app.
        by rewrite <- app_assoc. }
  destruct (Hgen _ st eq_refl Hs Hl Hc) as (Hbuf & Hlast & Hsize).
  split_and!; try done.
  unfold Stream.getBufferStatus. rewrite Hsize, Hbuf. f_equal.
  case_decide; [by rewrite length_app|].
  unfold newest. rewrite length_drop, length_app.
  unfold Stream.item, Time in *.
  match goal with
  | |- _ = Nat.min ?a ?b => destruct (Nat.min_spec a b) as [[? ->]|[? ->]]
  end; lia.
Qed.

End burst.

(** ** Instances of the further properties *)

Module DemoStep.

(** Stream 0 holds a sample stamped 5; stream 1, of period 4, has none and
    is expected at 4, within the timeout of 2. *)
Definition blocked : Demo.reader :=
  run (Sort := Sorts.insertion_sort)
    [OpRegister Demo.TInt 10 0; OpRegister Demo.TInt 10 4;
     OpPush 0 Demo.TInt 5 100] (SampleReader.new 2).

(** The same with period 1: stream 1 is expected at 1, out of the
    timeout. *)
Definition skipping : Demo.reader :=
  run (Sort := Sorts.insertion_sort)
    [OpRegister Demo.TInt 10 0; OpRegister Demo.TInt 10 1;
     OpPush 0 Demo.TInt 5 100] (SampleReader.new 2).

(** One registered stream, nothing pushed. *)
Definition registered : Demo.reader :=
  (registerStream (SampleReader.new 2) Demo.TInt 10 0).1.

End DemoStep.

Lemma step_idle_witness :
  step (Sort := Sorts.insertion_sort) DemoStep.registered =
    (false, DemoStep.registered).
Proof. apply step_idle. repeat constructor. Defined.

Lemma step_delivers_when_unblocked_witness :
  (step (Sort := Sorts.insertion_sort) DemoStep.skipping).1 = true.
Proof.
  assert (candidates DemoStep.skipping =
            [StreamIndex.mk 5 true 0; StreamIndex.mk 1 false 1]) as Hc
    by reflexivity.
  apply step_delivers_when_unblocked; rewrite Hc.
  - exists (StreamIndex.mk 5 true 0). split; [apply list_elem_of_here|done].
  - intros a Ha Hd.
    apply elem_of_cons in Ha as [->|Ha]; [done|].
    apply list_elem_of_singleton in Ha as ->. by vm_compute.
Defined.

Lemma step_waits_for_pending_witness :
  ∃ a, a ∈ candidates DemoStep.blocked ∧ StreamIndex.hasData a = false ∧
       latest_ts DemoStep.blocked
         < StreamIndex.time a + timeout DemoStep.blocked ∧
       ∀ b', b' ∈ candidates DemoStep.blocked →
             StreamIndex.hasData b' = true →
             StreamIndex.time a <= StreamIndex.time b'.
Proof.
  apply (step_waits_for_pending (Sort := Sorts.insertion_sort)
           DemoStep.blocked (StreamIndex.mk 5 true 0));
    [reflexivity | | reflexivity].
  change (candidates DemoStep.blocked)
    with [StreamIndex.mk 5 true 0; StreamIndex.mk 4 false 1].
  apply list_elem_of_here.
Defined.

Lemma step_overdue_flag_witness :
  let st := Stream.mk Demo.TInt ([] : list (Time * Z)) 10 1 0 false in
  let st' := Stream.mk Demo.TInt ([] : list (Time * Z)) 10 1 0 true in
  (Stream.overdue st' = true →
   Stream.overdue st = true ∨
   (Stream.hasData
      (Stream.throw_out_late (current_ts DemoStep.skipping) st) = false ∧
    Stream.nextTimeStamp
      (Stream.throw_out_late (current_ts DemoStep.skipping) st)
      + timeout DemoStep.skipping <= latest_ts DemoStep.skipping)) ∧
  (∀ t v,
     calls (step (Sort := Sorts.insertion_sort) DemoStep.skipping).2 =
       calls DemoStep.skipping ++ [(1%nat, t, v)] →
     Stream.overdue st' = false).
Proof.
  intros st st'.
  apply (step_overdue_flag (Sort := Sorts.insertion_sort)
           DemoStep.skipping 1 st st'); reflexivity.
Defined.

Lemma push_all_keeps_newest_witness :
  Stream.buffer (push_all Demo.full_stream [(3, 30); (4, 40)]) =
    [(3, 30); (4, 40)].
Proof.
  destruct (push_all_keeps_newest Demo.full_stream [(3, 30); (4, 40)])
    as (Hb & _).
  - repeat constructor; by vm_compute.
  - repeat constructor; by vm_compute.
  - intros _. simpl. lia.
  - exact Hb.
Defined.

(** ** Streams that expect nothing *)

Section idle_streams.
Context {Ty Val : Type} `{EqDecision Ty} {Sort : StdSort}.
Implicit Types (s : SampleReader.t Ty Val) (st : Stream.t Ty Val).
Implicit Types (it a b : StreamIndex.t) (l : list StreamIndex.t).

(** The second loop leaves alone the streams that none of its items
    names. *)
Lemma scan_untouched l j : ∀ s,
  (∀ a, a ∈ l → StreamIndex.stream a ≠ j) →
  streams (scan l s).2 !! j = streams s !! j.
Proof.
  induction l as [|x l IH]; intros s Hl; simpl; [done|].
  assert (StreamIndex.stream x ≠ j) as Hx
    by (apply Hl, list_elem_of_here).
  destruct (StreamIndex.hasData x).
  - simpl. by apply pop_stream_lookup_ne.
  - destruct (latest_ts s <? StreamIndex.time x + timeout s); [done|].
    rewrite IH.
    + by apply mark_overdue_lookup_ne.
    + intros a Ha. by apply Hl, list_elem_of_further.
Qed.

(** X13.  A stream with an empty queue whose [lastTime + period] is null
    (an aperiodic stream that never accepted a sample) is not a candidate
    of [step]: it holds no other stream back, and [step] leaves it exactly
    as it is, its [overdue] flag included. *)
Theorem step_ignores_unexpecting_stream s j st :
  streams s !! j = Some st → Stream.buffer st = [] →
  Stream.lastTime st + Stream.period st = 0 →
  (∀ it, it ∈ candidates s → StreamIndex.stream it ≠ j) ∧
  streams (step s).2 !! j = Some st.
Proof.
  intros Hst Hbuf Hnull.
  assert (∀ it, it ∈ candidates s → StreamIndex.stream it ≠ j) as Hcand.
  { intros it Hit Hj.
    pose proof Hit as Hcons. unfold candidates in Hcons.
    rewrite collect_items in Hcons.
    apply list_elem_of_filter in Hcons as [Hcons _].
    destruct (candidates_cases s it Hit) as (st0 & Hst0 & Heq).
    rewrite Hj, Hst in Hst0. injection Hst0 as <-.
    rewrite Heq in Hcons.
    unfold considered, candidate, Stream.hasData, Stream.nextTimeStamp
      in Hcons.
    simpl in Hcons. rewrite Hbuf in Hcons. simpl in Hcons.
    rewrite Hnull in Hcons. done. }
  split; [done|].
  assert (streams (swept s) !! j = Some st) as Hsw.
  { unfold swept. simpl. rewrite list_lookup_fmap, Hst. simpl.
    by rewrite throw_out_late_empty. }
  rewrite step_unfold. destruct (existsb _ _); [|done].
  rewrite scan_untouched; [done|].
  intros a Ha. apply Hcand. by rewrite <- (sort_perm (candidates s)).
Qed.

End idle_streams.

Lemma step_ignores_unexpecting_stream_witness :
  (∀ it, it ∈ candidates DemoStep.registered → StreamIndex.stream it ≠ 0%nat) ∧
  streams (step (Sort := Sorts.insertion_sort) DemoStep.registered).2 !! 0%nat
    = Some (Stream.new Demo.TInt 10 0).
Proof.
  apply (step_ignores_unexpecting_stream (Sort := Sorts.insertion_sort)
           DemoStep.registered 0 (Stream.new Demo.TInt 10 0));
    reflexivity.
Defined.
